(** * filewatch: a polling file watcher

    A shallow embedding of the Go package [filewatch] (one exported
    function, [Watch]) and the properties of its watch loop.

    The host capabilities the package consumes are inputs of the model:
    - [os.Stat] and [filepath.Abs] are functions of a file-system
      snapshot [FS];
    - [filepath.Walk] is the standard library's walk, run over the tree
      that [os.Lstat] and the directory reads expose at the walk's root;
    - the order of a [range] over a Go map is unspecified, so every loop
      over the tracked set takes the order it is run in as an argument;
    - a [select] picks any ready case, so the worker takes the list of
      cases picked as an argument. *)

From stdpp Require Import gmap strings list fin_maps.
From Stdlib Require Import ZArith Lia.

Open Scope Z_scope.

(** ** Host data: file metadata and errors *)

(** The part of [os.FileInfo] the package reads.  [ModTime] is an instant
    (nanoseconds), [Size] a byte count. *)
Record FileInfo := {
  Name : string;
  Size : Z;
  ModTime : Z;
  IsDir : bool
}.

Inductive Errno := ENOENT | EACCES | EIO | ENOTDIR.

(** Go [error] values that occur in the package: the [*os.PathError] of a
    failed system call, the sentinel [filepath.SkipDir], and the error
    [Watch] builds with [fmt.Errorf] for a bad interval. *)
Inductive error :=
| PathError (op path : string) (errno : Errno)
| SkipDir
| IntervalError (given : Z).

Inductive result (A : Type) :=
| Ok (a : A)
| Err (e : error).
Arguments Ok {A} a.
Arguments Err {A} e.

#[global] Instance Errno_eq_dec : EqDecision Errno.
Proof. solve_decision. Defined.

#[global] Instance error_eq_dec : EqDecision error.
Proof. solve_decision. Defined.

#[global] Instance FileInfo_eq_dec : EqDecision FileInfo.
Proof. solve_decision. Defined.

(** [os.IsNotExist]. *)
Definition IsNotExist (e : error) : bool :=
  match e with
  | PathError _ _ ENOENT => true
  | _ => false
  end.

Definition isSkipDir (e : error) : bool :=
  match e with
  | SkipDir => true
  | _ => false
  end.

(** [time.Second], in nanoseconds. *)
Definition Second : Z := 1000000000.

(** ** The file system as the walk sees it *)

(** A file [os.Lstat] finds: its [info] and, read only if it is a
    directory, what reading its entries answers: an error, or the names
    in the order the walk takes them (sorted, as path/filepath reads
    them), each with what [os.Lstat] answers for it. *)
Inductive File :=
| MkFile (info : FileInfo) (readdir : Errno + list (string * Node))
with Node :=
| Entry (file : File)
| NoEntry (errno : Errno).

(** A snapshot of the host: [filepath.Abs], [os.Stat] (which follows
    links) and the tree a walk rooted at a path finds (which does not). *)
Record FS := {
  Abs : string -> result string;
  Stat : string -> result FileInfo;
  Tree : string -> Node
}.

(** [filepath.Join] of a clean directory path and one entry name. *)
Definition Join (dir name : string) : string := dir +:+ "/" +:+ name.

(** ** filepath.Walk *)

(** What the walk hands to its callback: the [info] of a node it could
    [Lstat], with the error of reading the directory if that failed, or
    the [Lstat] error alone (the callback's [info] is then nil). *)
Inductive visit :=
| Found (info : FileInfo) (e : option error)
| Failed (e : error).

Definition WalkFunc (S : Type) : Type := string -> visit -> S -> S * option error.

Section Walk.
Context {S : Type} (walkFn : WalkFunc S).

(** [walk] of Go's path/filepath: a file is reported; a directory is
    read, reported with the read's error, and on success its entries are
    walked in order.  [SkipDir] from a directory (or from the callback
    on a failed [Lstat]) skips it, any other error stops the walk.  The
    package never returns [SkipAll], which is left out. *)
Fixpoint walk (path : string) (file : File) (s : S) : S * option error :=
  let '(MkFile info readdir) := file in
  if negb (IsDir info) then walkFn path (Found info None) s
  else
    match readdir with
    | inl errno => walkFn path (Found info (Some (PathError "open" path errno))) s
    | inr names =>
        let '(s1, err1) := walkFn path (Found info None) s in
        match err1 with
        | Some e => (s1, Some e)
        | None =>
            (fix entries (names : list (string * Node)) (s : S) : S * option error :=
               match names with
               | [] => (s, None)
               | (name, node) :: rest =>
                   let filename := Join path name in
                   match node with
                   | NoEntry errno =>
                       let '(s', err) :=
                         walkFn filename (Failed (PathError "lstat" filename errno)) s in
                       match err with
                       | Some e => if isSkipDir e then entries rest s' else (s', Some e)
                       | None => entries rest s'
                       end
                   | Entry (MkFile fileInfo _ as f) =>
                       let '(s', err) := walk filename f s in
                       match err with
                       | Some e =>
                           if negb (IsDir fileInfo) || negb (isSkipDir e)
                           then (s', Some e)
                           else entries rest s'
                       | None => entries rest s'
                       end
                   end
               end) names s1
        end
    end.

(** [filepath.Walk]. *)
Definition Walk (root : string) (node : Node) (s : S) : S * option error :=
  let '(s', err) :=
    match node with
    | NoEntry errno => walkFn root (Failed (PathError "lstat" root errno)) s
    | Entry file => walk root file s
    end in
  match err with
  | Some e => if isSkipDir e then (s', None) else (s', Some e)
  | None => (s', None)
  end.
End Walk.

(** ** The package *)

Record Update := {
  AbsPath : string;
  Prev : option FileInfo;
  Next : option FileInfo;
  Error : option error;
  WasRemoved : bool;
  WasAdded : bool
}.

#[global] Instance Update_eq_dec : EqDecision Update.
Proof. solve_decision. Defined.

(** The tracked set: [infos], a [map[string]os.FileInfo]. *)
Abbreviation Infos := (gmap string FileInfo).

(** [Update{AbsPath: p, Prev: fi, WasAdded: true}] *)
Definition added (p : string) (fi : FileInfo) : Update :=
  {| AbsPath := p; Prev := Some fi; Next := None; Error := None;
     WasRemoved := false; WasAdded := true |}.

(** [Update{AbsPath: path, Prev: prev, Error: err, WasRemoved: true}] *)
Definition removed (path : string) (prev : FileInfo) (err : error) : Update :=
  {| AbsPath := path; Prev := Some prev; Next := None; Error := Some err;
     WasRemoved := true; WasAdded := false |}.

(** [Update{AbsPath: path, Prev: prev, Next: next}] *)
Definition changedUpdate (path : string) (prev next : FileInfo) : Update :=
  {| AbsPath := path; Prev := Some prev; Next := Some next; Error := None;
     WasRemoved := false; WasAdded := false |}.

(** [up.Error = err] *)
Definition setError (up : Update) (err : option error) : Update :=
  {| AbsPath := AbsPath up; Prev := Prev up; Next := Next up; Error := err;
     WasRemoved := WasRemoved up; WasAdded := WasAdded up |}.

(** The callback of the initial walk. *)
Definition initialFn (root : string) (recurse : bool) : WalkFunc Infos :=
  fun path v infos =>
    match v with
    | Failed e | Found _ (Some e) => (infos, Some e)
    | Found info None =>
        (<[path := info]> infos,
         if IsDir info && negb recurse && negb (bool_decide (path = root))
         then Some SkipDir else None)
    end.

(** The callback of a discovery walk; its state is the tracked set and
    the slice [discovered]. *)
Definition discoverFn (recurse : bool) : WalkFunc (Infos * list Update) :=
  fun p v st =>
    match v with
    | Failed e | Found _ (Some e) => (st, Some e)
    | Found i None =>
        match st.1 !! p with
        | None =>
            ((<[p := i]> st.1, st.2 ++ [added p i]),
             if IsDir i && negb recurse then Some SkipDir else None)
        | Some _ => (st, None)
        end
    end.

(** [prev.ModTime().Before(next.ModTime()) || prev.Size() != next.Size()] *)
Definition changed (prev next : FileInfo) : bool :=
  (ModTime prev <? ModTime next) || negb (Size prev =? Size next).

(** The body of the scan loop for one [path, prev] of the range.  The
    third component is the local [up] as the body leaves it, if the body
    made one: [*up] is appended to [discovered] before the discovery walk
    runs, and the walk's result is assigned to [up.Error] afterwards. *)
Definition scanBody (fs : FS) (recurse : bool) (path : string) (prev : FileInfo)
    (st : Infos * list Update) : Infos * list Update * option Update :=
  match Stat fs path with
  | Err err =>
      ((if IsNotExist err then delete path st.1 else st.1,
        st.2 ++ [removed path prev err]), None)
  | Ok next =>
      if changed prev next then
        let up := changedUpdate path prev next in
        let discovered := st.2 ++ [up] in
        let infos := <[path := next]> st.1 in
        if IsDir next then
          let '(st', werr) :=
            Walk (discoverFn recurse) path (Tree fs path) (infos, discovered) in
          (st', Some (setError up werr))
        else ((infos, discovered), Some up)
      else (st, None)
  end.

Definition scanPath (fs : FS) (recurse : bool) (path : string) (prev : FileInfo)
    (st : Infos * list Update) : Infos * list Update :=
  (scanBody fs recurse path prev st).1.

(** [for path, prev := range infos { ... }], run in the order [order]:
    a key is produced with the value the map holds when it is reached,
    and only if the map then holds it. *)
Fixpoint scanLoop (fs : FS) (recurse : bool) (order : list string)
    (st : Infos * list Update) : Infos * list Update :=
  match order with
  | [] => st
  | path :: rest =>
      match st.1 !! path with
      | Some prev => scanLoop fs recurse rest (scanPath fs recurse path prev st)
      | None => scanLoop fs recurse rest st
      end
  end.

(** One scan pass: [discovered] starts as the nil slice. *)
Definition scan (fs : FS) (recurse : bool) (order : list string) (infos : Infos)
    : Infos * list Update :=
  scanLoop fs recurse order (infos, []).

(** What the goroutine of a session captures. *)
Record Session := {
  infos : Infos;
  tick : Z;
  recurse : bool
}.

(** [Watch], up to the [go] statement: the error it returns, or the
    session whose goroutine it starts. *)
Definition Watch (fs : FS) (path : string) (recurse : bool) (interval : option Z)
    : result Session :=
  match Abs fs path with
  | Err err => Err err
  | Ok root =>
      let tick := 2 * Second in
      match
        match interval with
        | Some d => if d <=? 0 then Err (IntervalError d) else Ok d
        | None => Ok tick
        end
      with
      | Err err => Err err
      | Ok tick =>
          let '(infos, werr) := Walk (initialFn root recurse) root (Tree fs root) ∅ in
          match werr with
          | Some e => Err e
          | None => Ok {| infos := infos; tick := tick; recurse := recurse |}
          end
      end
  end.

(** What the goroutine does to the outside. *)
Inductive Action :=
| Send (batch : list Update)
| NewTicker (d : Z)
| StopTicker
| CloseUpdates.

(** The case a [select] of the loop picks: the ticker's, with the host
    snapshot the scan then sees and the order its range runs in, or
    [done]'s. *)
Inductive Select :=
| TickCase (fs : FS) (order : list string)
| DoneCase.

(** Which channels can be received from when the [select] is reached. *)
Record Ready := {
  tickReady : bool;
  doneReady : bool
}.

(** A [select] without default picks among the cases that can proceed. *)
Definition selectable (r : Ready) (c : Select) : bool :=
  match c with
  | TickCase _ _ => tickReady r
  | DoneCase => doneReady r
  end.

Inductive Worker :=
| Looping (infos : Infos)
| Returned.

(** One turn of the [for { select { ... } }] loop.  Returning runs the
    deferred calls, last deferred first. *)
Definition loopIter (recurse : bool) (c : Select) (w : Worker) : Worker * list Action :=
  match w with
  | Returned => (Returned, [])
  | Looping infos =>
      match c with
      | TickCase fs order =>
          let '(infos', discovered) := scan fs recurse order infos in
          (Looping infos',
           if (0 <? length discovered)%nat then [Send discovered] else [])
      | DoneCase => (Returned, [CloseUpdates; StopTicker])
      end
  end.

Fixpoint runLoop (recurse : bool) (cs : list Select) (w : Worker) : Worker * list Action :=
  match cs with
  | [] => (w, [])
  | c :: rest =>
      let '(w', out) := loopIter recurse c w in
      let '(w'', outs) := runLoop recurse rest w' in
      (w'', out ++ outs)
  end.

(** The initial batch: one [Update] per entry the range over [infos]
    produces. *)
Definition initialBatch (range : list (string * FileInfo)) : list Update :=
  map (fun e => added e.1 e.2) range.

(** The goroutine of a session: the initial batch, the ticker, the loop. *)
Definition goroutine (s : Session) (range : list (string * FileInfo)) (cs : list Select)
    : list Action :=
  Send (initialBatch range) :: NewTicker (tick s)
    :: (runLoop (recurse s) cs (Looping (infos s))).2.

(** A [range] over a map that the loop body leaves alone produces every
    entry once, in some order. *)
Definition rangeOf (m : Infos) (range : list (string * FileInfo)) : Prop :=
  range ≡ₚ map_to_list m.

(** ** Notions the statements use *)

(** Induction over a file tree: the entries of a directory that
    [os.Lstat] finds satisfy the property. *)
Section FileInduction.
Variable P : File -> Prop.

Definition entryP (e : string * Node) : Prop :=
  match e.2 with
  | Entry f => P f
  | NoEntry _ => True
  end.

Definition entriesP (readdir : Errno + list (string * Node)) : Prop :=
  match readdir with
  | inl _ => True
  | inr names => List.Forall entryP names
  end.

Hypothesis step : forall info readdir, entriesP readdir -> P (MkFile info readdir).

Fixpoint File_tree_ind (f : File) : P f :=
  match f with
  | MkFile info readdir =>
      step info readdir
        (match readdir return entriesP readdir with
         | inl _ => I
         | inr names =>
             (fix go (l : list (string * Node)) : List.Forall entryP l :=
                match l with
                | [] => @List.Forall_nil _ entryP
                | (name, node) :: rest =>
                    @List.Forall_cons _ entryP (name, node) rest
                      (match node return entryP (name, node) with
                       | Entry f' => File_tree_ind f'
                       | NoEntry _ => I
                       end)
                      (go rest)
                end) names
         end)
  end.
End FileInduction.

(** The three shapes of an [Update] the package builds. *)
Inductive eventShape : Update -> Prop :=
| shape_added p i : eventShape (added p i)
| shape_removed path prev err : eventShape (removed path prev err)
| shape_changed path prev next : eventShape (changedUpdate path prev next).

(** The events of a batch that are about the path [p]. *)
Definition about (p : string) (d : list Update) : list Update :=
  filter (fun u => AbsPath u = p) d.

(** During a scan: [p] is tracked with snapshot [x] and its events so far
    are [l]. *)
Definition held (p : string) (x : FileInfo) (l : list Update)
    (st : Infos * list Update) : Prop :=
  st.1 !! p = Some x /\ about p st.2 = l.

(** A discovery walk has reported [p] in the batch [d]. *)
Definition rediscovered (p : string) (d : list Update) : Prop :=
  exists i, added p i ∈ d.

(** During a scan: [p] is untracked with events [l] so far, or a
    discovery walk has found it since. *)
Definition dropped (p : string) (l : list Update) (st : Infos * list Update) : Prop :=
  (st.1 !! p = None /\ about p st.2 = l) \/ rediscovered p st.2.

(** During a scan: [p] is untracked with events [l] so far, or a
    discovery walk has found it since, tracked it with what it found and
    reported that after [l], and nothing else has happened to it. *)
Definition regained (p : string) (l : list Update) (st : Infos * list Update) : Prop :=
  (st.1 !! p = None /\ about p st.2 = l) \/
  (exists i, st.1 !! p = Some i /\ about p st.2 = l ++ [added p i]).

(** The batches a trace delivers, in order. *)
Definition batches (tr : list Action) : list (list Update) :=
  omap (fun a => match a with Send b => Some b | _ => None end) tr.

(** A range produces [p] exactly once: what Go guarantees for a key that
    stays in the map for the whole loop. *)
Definition reachedOnce (p : string) (order : list string) : Prop :=
  exists l1 l2, order = l1 ++ p :: l2 /\ (p ∉ l1) /\ (p ∉ l2).

(** What one turn of the loop can do: send one batch that is not empty
    and holds well-shaped events, or close the stream and stop the
    ticker. *)
Definition loopAction (a : Action) : Prop :=
  match a with
  | Send b => b ≠ [] /\ Forall eventShape b
  | NewTicker _ => False
  | StopTicker | CloseUpdates => True
  end.

(** ** Concrete hosts

    A host without links, built from one tree: [os.Stat] and the walks
    read the same files. *)

Fixpoint findFile (path : string) (f : File) (target : string) : option Node :=
  if bool_decide (path = target) then Some (Entry f)
  else
    match f with
    | MkFile _ (inr names) =>
        (fix go (l : list (string * Node)) : option Node :=
           match l with
           | [] => None
           | (name, node) :: rest =>
               match node with
               | Entry f' =>
                   match findFile (Join path name) f' target with
                   | Some n => Some n
                   | None => go rest
                   end
               | NoEntry _ =>
                   if bool_decide (Join path name = target) then Some node else go rest
               end
           end) names
    | MkFile _ (inl _) => None
    end.

Definition hostOf (root : string) (tree : File) : FS :=
  {| Abs := Ok;
     Stat := fun p =>
       match findFile root tree p with
       | Some (Entry (MkFile info _)) => Ok info
       | Some (NoEntry errno) => Err (PathError "stat" p errno)
       | None => Err (PathError "stat" p ENOENT)
       end;
     Tree := fun p =>
       match findFile root tree p with
       | Some node => node
       | None => NoEntry ENOENT
       end |}.

Definition dirInfo (name : string) (mtime : Z) : FileInfo :=
  {| Name := name; Size := 4096; ModTime := mtime; IsDir := true |}.

Definition fileInfo (name : string) (size mtime : Z) : FileInfo :=
  {| Name := name; Size := size; ModTime := mtime; IsDir := false |}.

Definition plain (name : string) (size mtime : Z) : string * Node :=
  (name, Entry (MkFile (fileInfo name size mtime) (inr []))).

Definition dir (name : string) (mtime : Z) (names : list (string * Node)) : string * Node :=
  (name, Entry (MkFile (dirInfo name mtime) (inr names))).

(** [/r] holds the file [f] and the directory [sub], which holds [a]. *)
Definition hostA : FS :=
  hostOf "/r" (MkFile (dirInfo "r" 10)
    (inr [plain "f" 0 10; dir "sub" 10 [plain "a" 0 10]])).

(** Three bytes are written to [f]. *)
Definition hostB : FS :=
  hostOf "/r" (MkFile (dirInfo "r" 10)
    (inr [plain "f" 3 20; dir "sub" 10 [plain "a" 0 10]])).

(** [f] is deleted. *)
Definition hostC : FS :=
  hostOf "/r" (MkFile (dirInfo "r" 30)
    (inr [dir "sub" 10 [plain "a" 0 10]])).

(** [f] is created again. *)
Definition hostD : FS :=
  hostOf "/r" (MkFile (dirInfo "r" 40)
    (inr [plain "f" 0 40; dir "sub" 10 [plain "a" 0 10]])).

(** Starting from [hostA], the file [b] is created inside [sub]. *)
Definition hostE : FS :=
  hostOf "/r" (MkFile (dirInfo "r" 10)
    (inr [plain "f" 0 10; dir "sub" 50 [plain "a" 0 10; plain "b" 0 50]])).

(** Starting from [hostA], [tmp] and [z] are created in [/r], and [tmp]
    is gone again between the read of [/r] and the [os.Lstat] of it. *)
Definition hostF : FS :=
  hostOf "/r" (MkFile (dirInfo "r" 60)
    (inr [plain "f" 0 10; dir "sub" 10 [plain "a" 0 10];
          ("tmp", NoEntry ENOENT); plain "z" 0 60])).

(** Starting from [hostA], reading the metadata of [f] fails. *)
Definition hostG : FS :=
  hostOf "/r" (MkFile (dirInfo "r" 10)
    (inr [("f", NoEntry EIO); dir "sub" 10 [plain "a" 0 10]])).

(** The tracked set of a recursive watch of [/r] on [hostA], of a
    non-recursive one, and an order for their ranges. *)
Definition infosA : Infos :=
  list_to_map [("/r", dirInfo "r" 10); ("/r/f", fileInfo "f" 0 10);
               ("/r/sub", dirInfo "sub" 10); ("/r/sub/a", fileInfo "a" 0 10)].

Definition infosFlat : Infos :=
  list_to_map [("/r", dirInfo "r" 10); ("/r/f", fileInfo "f" 0 10);
               ("/r/sub", dirInfo "sub" 10)].

Definition orderA : list string := ["/r"; "/r/f"; "/r/sub"; "/r/sub/a"].

Definition sessionA : Session :=
  {| infos := infosA; tick := 2 * Second; recurse := true |}.

Definition sessionFlat : Session :=
  {| infos := infosFlat; tick := 2 * Second; recurse := false |}.

Definition bothReady : Ready := {| tickReady := true; doneReady := true |}.

(** ** The demo program *)

(** The label the demo (demo/demo.go) prints for an update. *)
Definition change (u : Update) : string :=
  if WasRemoved u then "Removed"
  else if WasAdded u then "Added"
  else "Changed".

(** The lines the demo prints, by the [Printf] that prints them. *)
Inductive Line :=
| Heading (path label : string)
| IsDirLine (isDir : bool)
| PrevLine (modTime size : Z)
| ErrorLine (err : error)
| NextLine (modTime size : Z).

(** What the demo prints for one update.  It calls [u.Prev.IsDir()]
    without a check: [None] stands for the panic on a nil [Prev]. *)
Definition report (u : Update) : option (list Line) :=
  match Prev u with
  | None => None
  | Some prev =>
      Some ([Heading (AbsPath u) (change u);
             IsDirLine (IsDir prev);
             PrevLine (ModTime prev) (Size prev)]
            ++ match Error u with
               | Some err => [ErrorLine err]
               | None =>
                   match Next u with
                   | Some next => [NextLine (ModTime next) (Size next)]
                   | None => []
                   end
               end)
  end.

(** ** File trees as a whole *)

(** The paths of the files of a tree rooted at [path], in walk order. *)
Fixpoint paths (path : string) (f : File) : list string :=
  let '(MkFile info readdir) := f in
  path ::
    (if IsDir info then
       match readdir with
       | inl _ => []
       | inr names =>
           flat_map (fun e : string * Node =>
                       match e.2 with
                       | Entry f' => paths (Join path e.1) f'
                       | NoEntry _ => []
                       end) names
       end
     else []).

(** Every directory of the tree can be read and every entry it lists can
    be reached. *)
Fixpoint readable (f : File) : bool :=
  let '(MkFile info readdir) := f in
  negb (IsDir info) ||
    match readdir with
    | inl _ => false
    | inr names =>
        forallb (fun e : string * Node =>
                   match e.2 with
                   | Entry f' => readable f'
                   | NoEntry _ => false
                   end) names
    end.

Section WalkEntries.
Context {S : Type} (walkFn : WalkFunc S) (path : string).

(** The loop of [walk] over the entries of the directory [path], on its
    own. *)
Fixpoint walkEntries (names : list (string * Node)) (s : S) : S * option error :=
  match names with
  | [] => (s, None)
  | (name, node) :: rest =>
      let filename := Join path name in
      match node with
      | NoEntry errno =>
          let '(s', err) :=
            walkFn filename (Failed (PathError "lstat" filename errno)) s in
          match err with
          | Some e => if isSkipDir e then walkEntries rest s' else (s', Some e)
          | None => walkEntries rest s'
          end
      | Entry (MkFile fileInfo _ as f) =>
          let '(s', err) := walk walkFn filename f s in
          match err with
          | Some e =>
              if negb (IsDir fileInfo) || negb (isSkipDir e)
              then (s', Some e)
              else walkEntries rest s'
          | None => walkEntries rest s'
          end
      end
  end.
End WalkEntries.

(** Every entry a directory lists can be reached, and those that are
    directories can be read. *)
Definition reachable (names : list (string * Node)) : bool :=
  forallb (fun e : string * Node =>
             match e.2 with
             | Entry (MkFile fi rd) =>
                 negb (IsDir fi) || match rd with inl _ => false | inr _ => true end
             | NoEntry _ => false
             end) names.

(** A tick finds the tracked path as it was stored. *)
Definition unchanged (fs : FS) (p : string) (prev : FileInfo) : Prop :=
  exists next, Stat fs p = Ok next /\ changed prev next = false.

(** The host gives the reason for an event of a scan: a removal reports
    the failure of [os.Stat], a change the metadata [os.Stat] returned,
    which differs from the stored one. *)
Definition justified (fs : FS) (u : Update) : Prop :=
  (WasRemoved u = true ->
     exists err, Error u = Some err /\ Stat fs (AbsPath u) = Err err) /\
  (WasRemoved u = false -> WasAdded u = false ->
     exists prev next,
       Prev u = Some prev /\ Next u = Some next /\
       Stat fs (AbsPath u) = Ok next /\ changed prev next = true).

(** During a scan that began with the tracked set [m]: every event so
    far, and every path tracked now, is about a path of [m] or one that an
    event so far reports as added. *)
Definition watched (m : Infos) (st : Infos * list Update) : Prop :=
  (forall u, u ∈ st.2 -> is_Some (m !! AbsPath u) \/ rediscovered (AbsPath u) st.2) /\
  (forall p, is_Some (st.1 !! p) -> is_Some (m !! p) \/ rediscovered p st.2).

(** More hosts: [/r/f] watched on its own, and the tree of [hostA]. *)
Definition hostFile : FS := hostOf "/r/f" (MkFile (fileInfo "f" 0 10) (inr [])).

Definition treeA : File :=
  MkFile (dirInfo "r" 10) (inr [plain "f" 0 10; dir "sub" 10 [plain "a" 0 10]]).

(** ** Reasoning about walks *)

Section WalkInvariant.
Context {S : Type} (walkFn : WalkFunc S) (P : S -> Prop).
Hypothesis walkFn_inv : forall p v s, P s -> P (walkFn p v s).1.

(** Whatever every call of the callback keeps, the walk of a file keeps. *)
Lemma walk_inv file : forall path s, P s -> P (walk walkFn path file s).1.
Proof.
  induction file as [info readdir IH] using File_tree_ind.
  intros path s Hs. simpl.
  destruct (negb (IsDir info)); [by apply walkFn_inv|].
  destruct readdir as [errno|names]; [by apply walkFn_inv|].
  simpl in IH.
  pose proof (walkFn_inv path (Found info None) s Hs) as H1.
  destruct (walkFn path (Found info None) s) as [s1 [e|]]; [exact H1|].
  simpl in H1. clear Hs. revert s1 H1.
  induction IH as [|[name node] rest Hnode _ IHrest]; intros s1 H1; [exact H1|].
  destruct node as [[fileInfo rd]|errno].
  - pose proof (Hnode (Join path name) s1 H1) as H2.
    destruct (walk walkFn (Join path name) (MkFile fileInfo rd) s1) as [s2 [e|]];
      simpl in H2.
    + destruct (negb (IsDir fileInfo) || negb (isSkipDir e)); [exact H2|by apply IHrest].
    + by apply IHrest.
  - pose proof (walkFn_inv (Join path name)
      (Failed (PathError "lstat" (Join path name) errno)) s1 H1) as H2.
    destruct (walkFn (Join path name) _ s1) as [s2 [e|]]; simpl in H2.
    + destruct (isSkipDir e); [by apply IHrest|exact H2].
    + by apply IHrest.
Qed.

Lemma Walk_inv root node s : P s -> P (Walk walkFn root node s).1.
Proof.
  intros Hs. unfold Walk.
  destruct node as [file|errno].
  - pose proof (walk_inv file root s Hs) as H.
    destruct (walk walkFn root file s) as [s' [e|]]; [destruct (isSkipDir e)|]; exact H.
  - pose proof (walkFn_inv root (Failed (PathError "lstat" root errno)) s Hs) as H.
    destruct (walkFn root _ s) as [s' [e|]]; [destruct (isSkipDir e)|]; exact H.
Qed.
End WalkInvariant.

(** ** Reasoning about one scan pass *)

Section ScanInvariant.
Context (recurse : bool) (P : Infos * list Update -> Prop).

(** An invariant of the scan: discovery, removal and change keep it. *)
Hypothesis discover_inv : forall p i st,
  P st -> st.1 !! p = None -> P (<[p := i]> st.1, st.2 ++ [added p i]).
Hypothesis removed_inv : forall path prev err st,
  P st -> st.1 !! path = Some prev ->
  P (if IsNotExist err then delete path st.1 else st.1, st.2 ++ [removed path prev err]).
Hypothesis changed_inv : forall path prev next st,
  P st -> st.1 !! path = Some prev ->
  P (<[path := next]> st.1, st.2 ++ [changedUpdate path prev next]).

Lemma discoverFn_inv p v st : P st -> P (discoverFn recurse p v st).1.
Proof.
  intros Hst. unfold discoverFn.
  destruct v as [i [e|]|e]; simpl; try done.
  destruct (st.1 !! p) eqn:Hp; simpl; [done|by apply discover_inv].
Qed.

Lemma scanPath_inv fs path prev st :
  P st -> st.1 !! path = Some prev -> P (scanPath fs recurse path prev st).
Proof.
  intros Hst Hp. unfold scanPath, scanBody.
  destruct (Stat fs path) as [next|err]; simpl; [|by apply removed_inv].
  destruct (changed prev next); simpl; [|done].
  pose proof (changed_inv path prev next st Hst Hp) as Hc.
  destruct (IsDir next); simpl; [|done].
  pose proof (Walk_inv (discoverFn recurse) P discoverFn_inv path (Tree fs path) _ Hc) as Hw.
  by destruct (Walk (discoverFn recurse) path (Tree fs path) _).
Qed.

Lemma scanLoop_inv fs order : forall st, P st -> P (scanLoop fs recurse order st).
Proof.
  induction order as [|path rest IH]; intros st Hst; simpl; [done|].
  destruct (st.1 !! path) as [prev|] eqn:Hp; [|by apply IH].
  by apply IH, scanPath_inv.
Qed.
End ScanInvariant.

Lemma scanLoop_app fs recurse l1 l2 : forall st,
  scanLoop fs recurse (l1 ++ l2) st = scanLoop fs recurse l2 (scanLoop fs recurse l1 st).
Proof.
  induction l1 as [|q l1 IH]; intros st; simpl; [done|].
  by destruct (st.1 !! q).
Qed.

Lemma scanLoop_shape fs recurse order st :
  Forall eventShape st.2 -> Forall eventShape (scanLoop fs recurse order st).2.
Proof.
  apply (scanLoop_inv recurse (fun st => Forall eventShape st.2)); simpl; intros;
    (apply Forall_app; split; [done|]); repeat constructor.
Qed.

Lemma scan_shape fs recurse order infos :
  Forall eventShape (scan fs recurse order infos).2.
Proof. apply scanLoop_shape. constructor. Qed.

(** Events are only ever appended. *)
Lemma scanLoop_keeps fs recurse order st u :
  u ∈ st.2 -> u ∈ (scanLoop fs recurse order st).2.
Proof.
  apply (scanLoop_inv recurse (fun st => u ∈ st.2)); simpl; intros;
    apply elem_of_app; by left.
Qed.

Section Frame.
Context (recurse : bool) (p : string).

Lemma about_snoc_ne d u : AbsPath u ≠ p -> about p (d ++ [u]) = about p d.
Proof.
  intros Hne. unfold about. rewrite filter_app, filter_cons_False by done.
  by rewrite filter_nil, app_nil_r.
Qed.

Lemma about_snoc_eq d u : AbsPath u = p -> about p (d ++ [u]) = about p d ++ [u].
Proof.
  intros Heq. unfold about. rewrite filter_app, filter_cons_True by done.
  by rewrite filter_nil.
Qed.

(** A discovery walk leaves a tracked [p] alone. *)
Lemma discoverFn_held x l p0 v st :
  held p x l st -> held p x l (discoverFn recurse p0 v st).1.
Proof.
  intros [H1 H2]. unfold discoverFn.
  destruct v as [i [e|]|e]; simpl; try done.
  destruct (st.1 !! p0) eqn:Hp0; simpl; [done|].
  assert (p0 ≠ p) by congruence.
  split; simpl; [by rewrite lookup_insert_ne|by rewrite about_snoc_ne].
Qed.

Lemma Walk_held x l root node st :
  held p x l st -> held p x l (Walk (discoverFn recurse) root node st).1.
Proof. apply Walk_inv. intros. by apply discoverFn_held. Qed.

(** Scanning a path other than [p] leaves a tracked [p] alone. *)
Lemma scanPath_held fs q prev x l st :
  q ≠ p -> held p x l st -> held p x l (scanPath fs recurse q prev st).
Proof.
  intros Hne Hst. unfold scanPath, scanBody.
  destruct (Stat fs q) as [next|err]; simpl.
  - destruct (changed prev next); simpl; [|done].
    assert (held p x l (<[q := next]> st.1, st.2 ++ [changedUpdate q prev next])) as Hc.
    { destruct Hst as [H1 H2]. split; simpl.
      - by rewrite lookup_insert_ne.
      - by rewrite about_snoc_ne. }
    destruct (IsDir next); simpl; [|done].
    pose proof (Walk_held x l q (Tree fs q) _ Hc) as Hw.
    by destruct (Walk (discoverFn recurse) q (Tree fs q) _).
  - destruct Hst as [H1 H2]. split; simpl.
    + destruct (IsNotExist err); [by rewrite lookup_delete_ne|done].
    + by rewrite about_snoc_ne.
Qed.

Lemma scanLoop_held fs order : forall x l st,
  p ∉ order -> held p x l st -> held p x l (scanLoop fs recurse order st).
Proof.
  induction order as [|q rest IH]; intros x l st Hnin Hst; simpl; [done|].
  apply not_elem_of_cons in Hnin as [Hne Hnin].
  destruct (st.1 !! q) as [prev|] eqn:Hq; [|by apply IH].
  apply IH; [done|]. by apply scanPath_held.
Qed.

Lemma dropped_snoc l st infos' u :
  dropped p l st ->
  (st.1 !! p = None -> AbsPath u ≠ p /\ infos' !! p = None) \/ (exists i, u = added p i) ->
  dropped p l (infos', st.2 ++ [u]).
Proof.
  intros [[H1 H2]|(i0 & Hin)] Hu.
  - destruct Hu as [Hu|[i ->]].
    + destruct (Hu H1) as [Hne Hp]. left. split; simpl; [done|by rewrite about_snoc_ne].
    + right. exists i. apply elem_of_app. right. by apply list_elem_of_singleton.
  - right. exists i0. apply elem_of_app. by left.
Qed.

(** Once dropped, [p] comes back only through a discovery. *)
Lemma scanLoop_dropped fs order l st :
  dropped p l st -> dropped p l (scanLoop fs recurse order st).
Proof.
  apply (scanLoop_inv recurse (dropped p l)); clear st.
  - intros p0 i st Hst Hp0. apply dropped_snoc; [done|].
    destruct (decide (p0 = p)) as [->|Hne]; [right; by exists i|].
    left. intros Hp. split; [done|]. simpl. by rewrite lookup_insert_ne.
  - intros path prev err st Hst Hpath. apply dropped_snoc; [done|].
    left. intros Hp. assert (path ≠ p) by congruence. split; [done|].
    destruct (IsNotExist err); [by rewrite lookup_delete_ne|done].
  - intros path prev next st Hst Hpath. apply dropped_snoc; [done|].
    left. intros Hp. assert (path ≠ p) by congruence. split; [done|].
    by rewrite lookup_insert_ne.
Qed.

(** The scan of an order that holds a tracked [p] reaches [p] with its
    snapshot untouched. *)
Lemma scan_reaches fs order (infos : Infos) prev :
  p ∈ order → infos !! p = Some prev →
  exists l2 st,
    held p prev [] st /\
    scan fs recurse order infos = scanLoop fs recurse l2 (scanPath fs recurse p prev st).
Proof.
  intros Hin Hp.
  apply list_elem_of_split_l in Hin as (l1 & l2 & -> & Hnl1).
  exists l2, (scanLoop fs recurse l1 (infos, [])).
  assert (held p prev [] (scanLoop fs recurse l1 (infos, []))) as Hheld.
  { apply scanLoop_held; [done|]. by split. }
  split; [done|].
  unfold scan. rewrite scanLoop_app. simpl.
  destruct Hheld as [-> _]. done.
Qed.

(** If the order holds [p] once, the scan does not come back to it. *)
Lemma scan_reaches_once fs order (infos : Infos) prev :
  reachedOnce p order → infos !! p = Some prev →
  exists l2 st,
    (p ∉ l2) /\ held p prev [] st /\
    scan fs recurse order infos = scanLoop fs recurse l2 (scanPath fs recurse p prev st).
Proof.
  intros (l1 & l2 & -> & Hnl1 & Hnl2) Hp.
  exists l2, (scanLoop fs recurse l1 (infos, [])).
  assert (held p prev [] (scanLoop fs recurse l1 (infos, []))) as Hheld.
  { apply scanLoop_held; [done|]. by split. }
  do 2 (split; [done|]).
  unfold scan. rewrite scanLoop_app. simpl.
  destruct Hheld as [-> _]. done.
Qed.
End Frame.

(** ** Reasoning about the loop *)

Lemma runLoop_Returned recurse cs : runLoop recurse cs Returned = (Returned, []).
Proof. induction cs as [|c cs IH]; simpl; [done|]. by rewrite IH. Qed.

Lemma runLoop_app recurse cs1 cs2 : forall w,
  runLoop recurse (cs1 ++ cs2) w =
  ((runLoop recurse cs2 (runLoop recurse cs1 w).1).1,
   (runLoop recurse cs1 w).2 ++ (runLoop recurse cs2 (runLoop recurse cs1 w).1).2).
Proof.
  induction cs1 as [|c cs1 IH]; intros w; simpl.
  - by destruct (runLoop recurse cs2 w).
  - destruct (loopIter recurse c w) as [w' out]. rewrite IH.
    destruct (runLoop recurse cs1 w') as [w1 t1]. simpl.
    destruct (runLoop recurse cs2 w1) as [w2 t2]. simpl.
    by rewrite app_assoc.
Qed.

Lemma loopIter_actions recurse c w : Forall loopAction (loopIter recurse c w).2.
Proof.
  destruct w as [infos|]; simpl; [|apply Forall_nil_2].
  destruct c as [fs order|]; [|by repeat apply Forall_cons_2].
  pose proof (scan_shape fs recurse order infos) as Hshape.
  destruct (scan fs recurse order infos) as [infos' d]. simpl in *.
  destruct d as [|u d]; simpl; [apply Forall_nil_2|].
  apply Forall_singleton. by split.
Qed.

Lemma runLoop_actions recurse cs : forall w, Forall loopAction (runLoop recurse cs w).2.
Proof.
  induction cs as [|c cs IH]; intros w; simpl; [apply Forall_nil_2|].
  pose proof (loopIter_actions recurse c w) as Hc.
  destruct (loopIter recurse c w) as [w' out].
  specialize (IH w'). destruct (runLoop recurse cs w') as [w'' outs].
  simpl in *. by apply Forall_app.
Qed.

(** As long as [done]'s case is not picked the loop goes on, and only
    sends. *)
Lemma runLoop_ticks recurse cs : forall infos,
  DoneCase ∉ cs ->
  (exists infos', (runLoop recurse cs (Looping infos)).1 = Looping infos') /\
  Forall (fun a => exists b, a = Send b) (runLoop recurse cs (Looping infos)).2.
Proof.
  induction cs as [|c cs IH]; intros infos Hnin; simpl.
  - split; [by exists infos|apply Forall_nil_2].
  - apply not_elem_of_cons in Hnin as [Hne Hnin].
    destruct c as [fs order|]; [|done]. simpl.
    destruct (scan fs recurse order infos) as [infos1 d].
    destruct (IH infos1 Hnin) as [[infos' Hw] Htr].
    destruct (runLoop recurse cs (Looping infos1)) as [w'' outs]. simpl in *.
    split; [by exists infos'|].
    apply Forall_app. split; [|done].
    destruct (0 <? length d)%nat; [|apply Forall_nil_2].
    apply Forall_singleton. by exists d.
Qed.

Lemma initialBatch_nil range : initialBatch range = [] -> range = [].
Proof. by destruct range. Qed.

(** ** Reasoning about the setup *)

(** The initial walk only ever adds to the tracked set. *)
Lemma initialFn_keeps root recurse (p0 : string) p v (infos : Infos) :
  is_Some (infos !! p0) -> is_Some ((initialFn root recurse p v infos).1 !! p0).
Proof.
  intros Hp0. unfold initialFn. destruct v as [i [e|]|e]; simpl; try done.
  destruct (decide (p = p0)) as [->|Hne].
  - rewrite lookup_insert_eq. by eexists.
  - by rewrite lookup_insert_ne.
Qed.

(** The walk reports its root first, so unless the root is a directory
    that cannot be read it may as well start with the root tracked. *)
Lemma walk_initial_restart root recurse info readdir :
  (IsDir info = true -> exists names, readdir = inr names) ->
  walk (initialFn root recurse) root (MkFile info readdir) ∅ =
  walk (initialFn root recurse) root (MkFile info readdir) (<[root := info]> ∅).
Proof.
  intros Hread. simpl. destruct (IsDir info); simpl.
  - destruct (Hread eq_refl) as [names ->]. by rewrite insert_insert_eq.
  - by rewrite insert_insert_eq.
Qed.

(** A walk that succeeds has tracked its root. *)
Lemma Walk_initial_root root recurse node (m : Infos) :
  Walk (initialFn root recurse) root node ∅ = (m, None) -> is_Some (m !! root).
Proof.
  unfold Walk. destruct node as [[info readdir]|errno]; [|done].
  assert ((IsDir info = true -> exists names, readdir = inr names) \/
          (IsDir info = true /\ exists errno, readdir = inl errno)) as [Hread|[Hdir [errno ->]]].
  { destruct (IsDir info); [|by left].
    destruct readdir as [errno|names]; [right|left]; eauto. }
  - rewrite walk_initial_restart by done.
    pose proof (walk_inv (initialFn root recurse) (fun s => is_Some (s !! root))
      (fun p v s => initialFn_keeps root recurse root p v s)
      (MkFile info readdir) root (<[root := info]> ∅)) as Hw.
    destruct (walk _ _ _ _) as [s' [e|]].
    + destruct (isSkipDir e); [|done]. intros [= <-]. apply Hw.
      rewrite lookup_insert_eq. by eexists.
    + intros [= <-]. apply Hw. rewrite lookup_insert_eq. by eexists.
  - simpl. by rewrite Hdir.
Qed.

(** What a successful [Watch] has done. *)
Lemma Watch_Ok fs path rec interval s :
  Watch fs path rec interval = Ok s ->
  exists root,
    Abs fs path = Ok root /\
    Walk (initialFn root rec) root (Tree fs root) ∅ = (infos s, None) /\
    recurse s = rec /\
    tick s = match interval with Some d => d | None => 2 * Second end /\
    0 < tick s.
Proof.
  unfold Watch. destruct (Abs fs path) as [root|e]; [|done].
  intros H. exists root. split; [done|].
  destruct interval as [d|].
  - destruct (d <=? 0) eqn:Hd; [done|]. apply Z.leb_gt in Hd.
    destruct (Walk (initialFn root rec) root (Tree fs root) ∅) as [m [e|]]; [done|].
    injection H as <-. done.
  - destruct (Walk (initialFn root rec) root (Tree fs root) ∅) as [m [e|]]; [done|].
    injection H as <-. done.
Qed.

Lemma Watch_tracks_root fs path rec interval s :
  Watch fs path rec interval = Ok s -> infos s ≠ ∅.
Proof.
  intros (root & _ & Hw & _)%Watch_Ok Hempty.
  apply Walk_initial_root in Hw as [x Hx].
  rewrite Hempty in Hx. by rewrite lookup_empty in Hx.
Qed.

Lemma eventShape_sound u :
  eventShape u -> Prev u ≠ None /\ WasAdded u && WasRemoved u = false.
Proof. by intros []. Qed.

Lemma initialBatch_shape range : Forall eventShape (initialBatch range).
Proof.
  unfold initialBatch. apply Forall_forall. intros u Hu.
  apply list_elem_of_fmap in Hu as ([p i] & -> & _). constructor.
Qed.

(** The events of the initial batch about [p], for a range whose keys are
    distinct. *)
Lemma about_initialBatch p range :
  NoDup range.*1 ->
  about p (initialBatch range) =
  match (list_to_map range : Infos) !! p with
  | Some fi => [added p fi]
  | None => []
  end.
Proof.
  induction range as [|[q x] rest IH]; intros Hnd; [done|].
  apply NoDup_cons in Hnd as [Hq Hnd]. specialize (IH Hnd).
  change (list_to_map ((q, x) :: rest) : Infos) with (<[q := x]> (list_to_map rest : Infos)).
  unfold about, initialBatch in *. simpl.
  destruct (decide (q = p)) as [->|Hne].
  - rewrite filter_cons_True by done. rewrite lookup_insert_eq, IH.
    by rewrite (not_elem_of_list_to_map_1 _ _ Hq).
  - rewrite filter_cons_False by done. by rewrite lookup_insert_ne.
Qed.

Lemma rangeOf_list_to_map (m : Infos) range :
  rangeOf m range -> NoDup range.*1 /\ list_to_map range = m.
Proof.
  unfold rangeOf. intros Hperm.
  assert (NoDup range.*1) as Hnd.
  { rewrite Hperm. apply NoDup_fst_map_to_list. }
  split; [done|].
  rewrite (list_to_map_proper _ _ Hnd Hperm). apply list_to_map_to_list.
Qed.

(** What the loop body does for a tracked path whose [os.Stat] succeeds. *)
Lemma scanPath_stat_ok rec fs p prev next l st :
  held p prev l st → Stat fs p = Ok next →
  held p (if changed prev next then next else prev)
         (l ++ if changed prev next then [changedUpdate p prev next] else [])
         (scanPath fs rec p prev st).
Proof.
  intros Hheld Hstat. unfold scanPath, scanBody. rewrite Hstat.
  destruct (changed prev next); simpl; [|by rewrite app_nil_r].
  assert (held p next (l ++ [changedUpdate p prev next])
            (<[p := next]> st.1, st.2 ++ [changedUpdate p prev next])) as Hc.
  { destruct Hheld as [H1 H2]. split; simpl.
    - by rewrite lookup_insert_eq.
    - rewrite about_snoc_eq by done. by rewrite H2. }
  destruct (IsDir next); simpl; [|done].
  pose proof (Walk_held rec p _ _ p (Tree fs p) _ Hc) as Hw.
  by destruct (Walk (discoverFn rec) p (Tree fs p) _).
Qed.

Lemma scanPath_stat_err rec fs p prev err st :
  Stat fs p = Err err →
  scanPath fs rec p prev st =
    (if IsNotExist err then delete p st.1 else st.1, st.2 ++ [removed p prev err]).
Proof. intros Hstat. unfold scanPath, scanBody. by rewrite Hstat. Qed.

(** A tick whose scan produced an event delivers the scan's events. *)
Lemma loopIter_delivers rec fs order (m : Infos) u :
  u ∈ (scan fs rec order m).2 →
  loopIter rec (TickCase fs order) (Looping m) =
    (Looping (scan fs rec order m).1, [Send (scan fs rec order m).2]).
Proof.
  intros Hu. simpl. destruct (scan fs rec order m) as [m' d]. simpl in *.
  destruct d; [|done]. by apply elem_of_nil in Hu.
Qed.

(** The only events of a scan that carry an error are those of a failed
    [os.Stat]: no delivered event carries the error of a discovery walk. *)
Lemma scan_error_is_stat_failure fs rec order (m : Infos) u :
  u ∈ (scan fs rec order m).2 → Error u ≠ None →
  ∃ path prev err, u = removed path prev err.
Proof.
  intros Hu Herr. pose proof (scan_shape fs rec order m) as Hshape.
  rewrite Forall_forall in Hshape. destruct (Hshape u Hu); [done| |done].
  by exists path, prev, err.
Qed.

(** A discovery walk tracks an untracked [p] at most once, with the
    event that reports it. *)
Lemma discoverFn_regained rec p l p0 v st :
  regained p l st → regained p l (discoverFn rec p0 v st).1.
Proof.
  intros [[H1 H2]|(i0 & H1 & H2)].
  - unfold discoverFn. destruct v as [i [e|]|e]; simpl; try (by left).
    destruct (st.1 !! p0) eqn:Hp0; simpl; [by left|].
    destruct (decide (p0 = p)) as [->|Hne].
    + right. exists i. split; simpl; [by rewrite lookup_insert_eq|].
      rewrite about_snoc_eq by done. by rewrite H2.
    + left. split; simpl; [by rewrite lookup_insert_ne|by rewrite about_snoc_ne].
  - right. exists i0. by apply (discoverFn_held rec p i0 (l ++ [added p i0]) p0 v st).
Qed.

Lemma scanPath_regained rec fs p l q prev st :
  q ≠ p → regained p l st → regained p l (scanPath fs rec q prev st).
Proof.
  intros Hne [[H1 H2]|(i0 & H1 & H2)].
  - unfold scanPath, scanBody.
    destruct (Stat fs q) as [next|err]; simpl.
    + destruct (changed prev next); simpl; [|by left].
      assert (regained p l (<[q := next]> st.1, st.2 ++ [changedUpdate q prev next]))
        as Hc.
      { left. split; simpl; [by rewrite lookup_insert_ne|by rewrite about_snoc_ne]. }
      destruct (IsDir next); simpl; [|done].
      pose proof (Walk_inv (discoverFn rec) (regained p l)
        (fun p0 v s => discoverFn_regained rec p l p0 v s) q (Tree fs q) _ Hc) as Hw.
      by destruct (Walk (discoverFn rec) q (Tree fs q) _).
    + left. split; simpl; [|by rewrite about_snoc_ne].
      destruct (IsNotExist err); [by rewrite lookup_delete_ne|done].
  - right. exists i0. by apply (scanPath_held rec p fs q prev i0 (l ++ [added p i0]) st).
Qed.

Lemma scanLoop_regained rec fs p l order : ∀ st,
  p ∉ order → regained p l st → regained p l (scanLoop fs rec order st).
Proof.
  induction order as [|q rest IH]; intros st Hnin Hst; simpl; [done|].
  apply not_elem_of_cons in Hnin as [Hne Hnin].
  destruct (st.1 !! q) as [prev|] eqn:Hq; [|by apply IH].
  apply IH; [done|]. by apply scanPath_regained.
Qed.

(** ** Properties of the watcher *)

(** C1. A session that [Watch] starts delivers one initial batch before
    it creates its ticker and enters the loop.  The batch is built from
    the tracked set the initial walk returned: for every tracked path the
    events about it are exactly one [added] event carrying the tracked
    metadata as [Prev], for every other path there is none, and every
    event of the batch has [WasAdded] set, [WasRemoved] unset, and no
    [Next] and no [Error]. *)
Theorem C1_initial_batch fs path rec interval s range cs :
  Watch fs path rec interval = Ok s → rangeOf (infos s) range →
  goroutine s range cs =
    Send (initialBatch range) :: NewTicker (tick s)
      :: (runLoop (recurse s) cs (Looping (infos s))).2 ∧
  (∃ root, Abs fs path = Ok root ∧
     Walk (initialFn root rec) root (Tree fs root) ∅ = (infos s, None)) ∧
  (∀ p, about p (initialBatch range) =
     match infos s !! p with Some fi => [added p fi] | None => [] end) ∧
  (∀ u, u ∈ initialBatch range →
     WasAdded u = true ∧ WasRemoved u = false ∧ Next u = None ∧ Error u = None ∧
     Prev u ≠ None ∧ Prev u = infos s !! AbsPath u).
Proof.
  intros HW Hrange. split; [done|].
  apply Watch_Ok in HW as (root & Habs & Hwalk & _).
  split; [by exists root|].
  apply rangeOf_list_to_map in Hrange as Hl. destruct Hl as [Hnd Hm].
  split.
  - intros p. rewrite about_initialBatch by done. by rewrite Hm.
  - intros u Hu. unfold initialBatch in Hu.
    apply list_elem_of_fmap in Hu as ([p i] & -> & Hin). simpl.
    repeat split; try done.
    symmetry. rewrite <- Hm. by apply elem_of_list_to_map_1.
Qed.

Lemma C1_witness :
  Watch hostA "/r" true None = Ok sessionA ∧
  rangeOf infosA (map_to_list infosA) ∧
  about "/r/f" (initialBatch (map_to_list infosA)) = [added "/r/f" (fileInfo "f" 0 10)].
Proof.
  assert (Watch hostA "/r" true None = Ok sessionA) as H1 by (vm_compute; reflexivity).
  assert (rangeOf (infos sessionA) (map_to_list infosA)) as H2 by (unfold rangeOf; reflexivity).
  split; [exact H1|]. split; [exact H2|].
  destruct (C1_initial_batch hostA "/r" true None sessionA (map_to_list infosA) [] H1 H2)
    as (_ & _ & H & _).
  exact (H "/r/f").
Defined.

(** C2. Take a tracked path whose [os.Stat] succeeds, and call it changed
    if the new modification time is later than the stored one or the
    sizes differ.  The event of an in-place change has the path, [Prev]
    the stored snapshot, [Next] the new one, no error and neither flag
    set.  Whenever the loop body runs for the path, it appends to the
    events about the path exactly that one event if the path is changed,
    and stores the new snapshot; if the path is not changed it appends no
    event about it and the stored snapshot stays.  For a path tracked
    when the tick begins, which the tick's range then reaches once: if it
    is changed the tick's events about it are exactly that one event and
    the new snapshot is stored when the tick ends, otherwise the tick has
    no event about it and the stored snapshot is unchanged. *)
Theorem C2_in_place_change rec fs p prev next :
  Stat fs p = Ok next →
  (changed prev next = true ↔ ModTime prev < ModTime next ∨ Size prev ≠ Size next) ∧
  (AbsPath (changedUpdate p prev next) = p ∧
   Prev (changedUpdate p prev next) = Some prev ∧
   Next (changedUpdate p prev next) = Some next ∧
   Error (changedUpdate p prev next) = None ∧
   WasRemoved (changedUpdate p prev next) = false ∧
   WasAdded (changedUpdate p prev next) = false) ∧
  (∀ st, st.1 !! p = Some prev →
     (scanPath fs rec p prev st).1 !! p =
       Some (if changed prev next then next else prev) ∧
     about p (scanPath fs rec p prev st).2 =
       about p st.2 ++ (if changed prev next then [changedUpdate p prev next] else [])) ∧
  (∀ order (m : Infos), reachedOnce p order → m !! p = Some prev →
     (changed prev next = true →
        about p (scan fs rec order m).2 = [changedUpdate p prev next] ∧
        (scan fs rec order m).1 !! p = Some next) ∧
     (changed prev next = false →
        about p (scan fs rec order m).2 = [] ∧
        (scan fs rec order m).1 !! p = Some prev)).
Proof.
  intros Hstat. split.
  { unfold changed. rewrite orb_true_iff, negb_true_iff, Z.ltb_lt, Z.eqb_neq. done. }
  split; [by repeat split|].
  split.
  - intros st Hp.
    by apply (scanPath_stat_ok rec fs p prev next (about p st.2) st).
  - intros order m Honce Hp.
    destruct (scan_reaches_once rec p fs order m prev Honce Hp)
      as (l2 & st & Hnl2 & Hheld & ->).
    pose proof (scanPath_stat_ok rec fs p prev next [] st Hheld Hstat) as Hat.
    apply (scanLoop_held rec p fs l2 _ _ _ Hnl2) in Hat.
    destruct (changed prev next); destruct Hat as [H1 H2]; split; intros [=]; done.
Qed.

Lemma C2_witness :
  reachedOnce "/r/f" orderA ∧
  infosA !! "/r/f" = Some (fileInfo "f" 0 10) ∧
  Stat hostB "/r/f" = Ok (fileInfo "f" 3 20) ∧
  about "/r/f" (scan hostB true orderA infosA).2 =
    [{| AbsPath := "/r/f";
        Prev := Some (fileInfo "f" 0 10);
        Next := Some (fileInfo "f" 3 20);
        Error := None;
        WasRemoved := false;
        WasAdded := false |}] ∧
  (scan hostB true orderA infosA).1 !! "/r/f" = Some (fileInfo "f" 3 20).
Proof.
  assert (reachedOnce "/r/f" orderA) as H1.
  { exists ["/r"], ["/r/sub"; "/r/sub/a"]. split; [reflexivity|].
    split; apply (bool_decide_unpack _); vm_compute; exact I. }
  assert (infosA !! "/r/f" = Some (fileInfo "f" 0 10)) as H2 by (vm_compute; reflexivity).
  assert (Stat hostB "/r/f" = Ok (fileInfo "f" 3 20)) as H3 by (vm_compute; reflexivity).
  do 3 (split; [assumption|]).
  destruct (C2_in_place_change true hostB "/r/f" (fileInfo "f" 0 10) _ H3)
    as (_ & _ & _ & H).
  destruct (H orderA infosA H1 H2) as [Hch _].
  destruct (Hch ltac:(vm_compute; reflexivity)) as [Hab Hlk].
  split; [|exact Hlk].
  rewrite Hab. reflexivity.
Defined.

(** C3, amended to what the code does.  Take a tracked path whose
    [os.Stat] fails.  The event of the failure has the path, [WasRemoved]
    set, the failure as [Error], the stored snapshot as [Prev], and no
    [Next]; the event of a discovery has the path, [WasAdded] set and
    what the walk found as [Prev].  Whenever the loop body runs for the
    path it appends the event of the failure, and deletes the path from
    the tracked set if the failure is non-existence, and only then.  For a
    path tracked when the tick begins and reached by its range, the tick
    delivers a batch that holds this event.  If the failure is
    non-existence the path is untracked when the tick ends and the batch
    has no other event about it, unless a discovery walk of the same tick
    found the path again; if the range does not come back to the path,
    that discovery has tracked the path again with what it found, and
    the batch's events about the path are the removal and then the
    discovery.  If it is any other failure the path stays in the tracked
    set, so the range reaches it once: it is still tracked with its
    snapshot when the tick ends, for the next tick to stat again, and the
    batch has no other event about it.  A path that is untracked when a
    tick begins stays untracked and out of the tick's batch, unless a
    discovery walk of that tick finds it: the walk's callback then tracks
    it and appends its discovery event, so that, if the range does not
    reach the path in that tick, it is tracked when the tick ends and the
    discovery is the batch's one event about it. *)
Theorem C3_stat_failure rec fs order (m : Infos) p :
  (∀ prev err, Stat fs p = Err err →
     (AbsPath (removed p prev err) = p ∧
      Prev (removed p prev err) = Some prev ∧
      Error (removed p prev err) = Some err ∧
      WasRemoved (removed p prev err) = true ∧
      WasAdded (removed p prev err) = false ∧
      Next (removed p prev err) = None) ∧
     (∀ st, scanPath fs rec p prev st =
        (if IsNotExist err then delete p st.1 else st.1,
         st.2 ++ [removed p prev err])) ∧
     (p ∈ order → m !! p = Some prev →
        removed p prev err ∈ (scan fs rec order m).2 ∧
        (loopIter rec (TickCase fs order) (Looping m)).2 =
          [Send (scan fs rec order m).2] ∧
        (IsNotExist err = true →
           ((scan fs rec order m).1 !! p = None ∧
            about p (scan fs rec order m).2 = [removed p prev err]) ∨
           rediscovered p (scan fs rec order m).2) ∧
        (IsNotExist err = true → reachedOnce p order →
           ((scan fs rec order m).1 !! p = None ∧
            about p (scan fs rec order m).2 = [removed p prev err]) ∨
           (∃ i, (scan fs rec order m).1 !! p = Some i ∧
                 about p (scan fs rec order m).2 = [removed p prev err; added p i])) ∧
        (IsNotExist err = false → reachedOnce p order →
           (scan fs rec order m).1 !! p = Some prev ∧
           about p (scan fs rec order m).2 = [removed p prev err]))) ∧
  (m !! p = None →
     ((scan fs rec order m).1 !! p = None ∧ about p (scan fs rec order m).2 = []) ∨
     rediscovered p (scan fs rec order m).2) ∧
  (m !! p = None → (p ∉ order) →
     ((scan fs rec order m).1 !! p = None ∧ about p (scan fs rec order m).2 = []) ∨
     (∃ i, (scan fs rec order m).1 !! p = Some i ∧
           about p (scan fs rec order m).2 = [added p i])) ∧
  (∀ i,
     AbsPath (added p i) = p ∧
     Prev (added p i) = Some i ∧
     WasAdded (added p i) = true ∧
     WasRemoved (added p i) = false ∧
     Next (added p i) = None ∧
     Error (added p i) = None) ∧
  (∀ i st, st.1 !! p = None →
     (discoverFn rec p (Found i None) st).1 = (<[p := i]> st.1, st.2 ++ [added p i])).
Proof.
  split; [|split; [|split; [|split]]].
  - intros prev err Hstat. split; [by repeat split|].
    split; [intros st; by apply scanPath_stat_err|].
    intros Hin Hp.
    assert (∀ st, held p prev [] st →
              about p (st.2 ++ [removed p prev err]) = [removed p prev err]) as Habout.
    { intros st [_ H]. rewrite about_snoc_eq by done. by rewrite H. }
    assert (removed p prev err ∈ (scan fs rec order m).2) as Hrem.
    { destruct (scan_reaches rec p fs order m prev Hin Hp) as (l2 & st & Hheld & ->).
      rewrite (scanPath_stat_err rec fs p prev err st Hstat).
      apply scanLoop_keeps. simpl. apply elem_of_app. right.
      by apply list_elem_of_singleton. }
    split; [done|]. split; [by rewrite (loopIter_delivers _ _ _ _ _ Hrem)|].
    split; [|split].
    + intros Hne.
      destruct (scan_reaches rec p fs order m prev Hin Hp) as (l2 & st & Hheld & ->).
      rewrite (scanPath_stat_err rec fs p prev err st Hstat).
      rewrite Hne. apply (scanLoop_dropped rec p fs l2). left. split; [|by apply Habout].
      simpl. apply lookup_delete_eq.
    + intros Hne Honce.
      destruct (scan_reaches_once rec p fs order m prev Honce Hp)
        as (l2 & st & Hnl2 & Hheld & ->).
      rewrite (scanPath_stat_err rec fs p prev err st Hstat).
      rewrite Hne.
      apply (scanLoop_regained rec fs p [removed p prev err] l2 _ Hnl2).
      left. split; [|by apply Habout]. simpl. apply lookup_delete_eq.
    + intros Hne Honce.
      destruct (scan_reaches_once rec p fs order m prev Honce Hp)
        as (l2 & st & Hnl2 & Hheld & ->).
      rewrite (scanPath_stat_err rec fs p prev err st Hstat).
      rewrite Hne. apply (scanLoop_held rec p fs l2 _ _ _ Hnl2).
      split; [apply Hheld|by apply Habout].
  - intros Hp. apply (scanLoop_dropped rec p fs order). by left.
  - intros Hp Hnin.
    apply (scanLoop_regained rec fs p [] order (m, []) Hnin). by left.
  - intros i. by repeat split.
  - intros i st Hp. unfold discoverFn. simpl. by rewrite Hp.
Qed.

Lemma C3_witness :
  ("/r/f" ∈ orderA ∧ reachedOnce "/r/f" orderA ∧
   infosA !! "/r/f" = Some (fileInfo "f" 0 10)) ∧
  (Stat hostC "/r/f" = Err (PathError "stat" "/r/f" ENOENT) ∧
   {| AbsPath := "/r/f";
      Prev := Some (fileInfo "f" 0 10);
      Next := None;
      Error := Some (PathError "stat" "/r/f" ENOENT);
      WasRemoved := true;
      WasAdded := false |} ∈ (scan hostC true orderA infosA).2 ∧
   (loopIter true (TickCase hostC orderA) (Looping infosA)).2 =
     [Send (scan hostC true orderA infosA).2] ∧
   (scan hostC true orderA infosA).1 !! "/r/f" = None) ∧
  (Stat hostG "/r/f" = Err (PathError "stat" "/r/f" EIO) ∧
   (scan hostG true orderA infosA).1 !! "/r/f" = Some (fileInfo "f" 0 10) ∧
   about "/r/f" (scan hostG true orderA infosA).2 =
     [{| AbsPath := "/r/f";
         Prev := Some (fileInfo "f" 0 10);
         Next := None;
         Error := Some (PathError "stat" "/r/f" EIO);
         WasRemoved := true;
         WasAdded := false |}]).
Proof.
  assert ("/r/f" ∈ orderA) as H1 by (apply (bool_decide_unpack _); vm_compute; exact I).
  assert (reachedOnce "/r/f" orderA) as H1'.
  { exists ["/r"], ["/r/sub"; "/r/sub/a"]. split; [reflexivity|].
    split; apply (bool_decide_unpack _); vm_compute; exact I. }
  assert (infosA !! "/r/f" = Some (fileInfo "f" 0 10)) as H2 by (vm_compute; reflexivity).
  assert (Stat hostC "/r/f" = Err (PathError "stat" "/r/f" ENOENT)) as H3
    by (vm_compute; reflexivity).
  assert (Stat hostG "/r/f" = Err (PathError "stat" "/r/f" EIO)) as H4
    by (vm_compute; reflexivity).
  split; [by repeat split|]. split.
  - destruct (proj1 (C3_stat_failure true hostC orderA infosA "/r/f")
                (fileInfo "f" 0 10) _ H3)
      as (_ & _ & Htick).
    destruct (Htick H1 H2) as (Ha & Hb & _ & Hc & _).
    split; [exact H3|]. split; [|split; [exact Hb|]].
    + exact Ha.
    + destruct (Hc eq_refl H1') as [[Hnone _]|(i & Hsome & Habout)]; [exact Hnone|].
      exfalso. revert Habout. vm_compute. discriminate.
  - destruct (proj1 (C3_stat_failure true hostG orderA infosA "/r/f")
                (fileInfo "f" 0 10) _ H4)
      as (_ & _ & Htick).
    destruct (Htick H1 H2) as (_ & _ & _ & _ & Hd).
    destruct (Hd eq_refl H1') as [Hlk Hab].
    split; [exact H4|]. split; [exact Hlk|].
    rewrite Hab. reflexivity.
Defined.

(** C3 as the specification states it fails: [f] is tracked, the first
    tick finds it gone and reports it removed, the file is created again,
    and the second tick's batch reports it added. *)
Lemma C3_counterexample :
  infosA !! "/r/f" = Some (fileInfo "f" 0 10) ∧
  Stat hostC "/r/f" = Err (PathError "stat" "/r/f" ENOENT) ∧
  IsNotExist (PathError "stat" "/r/f" ENOENT) = true ∧
  batches (runLoop true [TickCase hostC orderA; TickCase hostD orderA] (Looping infosA)).2 =
    [ [changedUpdate "/r" (dirInfo "r" 10) (dirInfo "r" 30);
       {| AbsPath := "/r/f";
          Prev := Some (fileInfo "f" 0 10);
          Next := None;
          Error := Some (PathError "stat" "/r/f" ENOENT);
          WasRemoved := true;
          WasAdded := false |}];
      [changedUpdate "/r" (dirInfo "r" 30) (dirInfo "r" 40);
       {| AbsPath := "/r/f";
          Prev := Some (fileInfo "f" 0 40);
          Next := None;
          Error := None;
          WasRemoved := false;
          WasAdded := true |}] ].
Proof. vm_compute. repeat split. Qed.

(** C4, on the code.  [/r] is tracked and has changed, and its discovery
    walk fails at [tmp].  The walk's error is assigned to the local [up],
    after the copy of [up] was appended to [discovered]: the batch the
    tick delivers holds the event of [/r] without the error, and [z],
    which the aborted walk did not reach, is not reported.  The scan goes
    on to the other tracked paths. *)
Theorem C4_walk_error_dropped :
  Stat hostF "/r" = Ok (dirInfo "r" 60) ∧
  (Walk (discoverFn true) "/r" (Tree hostF "/r")
     (<["/r" := dirInfo "r" 60]> infosA,
      [changedUpdate "/r" (dirInfo "r" 10) (dirInfo "r" 60)])).2 =
    Some (PathError "lstat" "/r/tmp" ENOENT) ∧
  (scanBody hostF true "/r" (dirInfo "r" 10) (infosA, [])).2 =
    Some (setError (changedUpdate "/r" (dirInfo "r" 10) (dirInfo "r" 60))
            (Some (PathError "lstat" "/r/tmp" ENOENT))) ∧
  (loopIter true (TickCase hostF orderA) (Looping infosA)).2 =
    [Send [changedUpdate "/r" (dirInfo "r" 10) (dirInfo "r" 60)]] ∧
  Error (changedUpdate "/r" (dirInfo "r" 10) (dirInfo "r" 60)) = None.
Proof. vm_compute. repeat split. Qed.

(** C5, on the code.  [/r] is watched without recursion: the initial walk
    tracks [sub] and not [sub]'s file [a].  Then [b] is created inside
    [sub]; the next tick finds [sub] changed, walks it, and delivers
    events that report [a] and [b], the files inside the subdirectory, as
    added. *)
Theorem C5_flat_watch_descends :
  Watch hostA "/r" false None = Ok sessionFlat ∧
  infos sessionFlat !! "/r/sub" = Some (dirInfo "sub" 10) ∧
  infos sessionFlat !! "/r/sub/a" = None ∧
  batches (goroutine sessionFlat (map_to_list infosFlat) [TickCase hostE orderA]) =
    [ [added "/r/sub" (dirInfo "sub" 10); added "/r/f" (fileInfo "f" 0 10);
       added "/r" (dirInfo "r" 10)];
      [changedUpdate "/r/sub" (dirInfo "sub" 10) (dirInfo "sub" 50);
       added "/r/sub/a" (fileInfo "a" 0 10);
       added "/r/sub/b" (fileInfo "b" 0 50)] ].
Proof. vm_compute. repeat split. Qed.

(** C6. No batch a session delivers is empty, the initial one included;
    a tick whose scan produced no event sends nothing, and a tick whose
    scan produced events sends exactly them, as one batch. *)
Theorem C6_no_empty_batch fs path rec interval s range cs :
  Watch fs path rec interval = Ok s → rangeOf (infos s) range →
  (∀ b, Send b ∈ goroutine s range cs → b ≠ []) ∧
  (∀ fs' order (m : Infos),
     (loopIter (recurse s) (TickCase fs' order) (Looping m)).2 =
     if decide ((scan fs' (recurse s) order m).2 = []) then []
     else [Send (scan fs' (recurse s) order m).2]).
Proof.
  intros HW Hrange. split.
  - intros b Hb. unfold goroutine in Hb.
    apply elem_of_cons in Hb as [[= ->]|Hb].
    + intros Hnil%initialBatch_nil. subst range.
      apply (Watch_tracks_root _ _ _ _ _ HW).
      apply map_to_list_empty_iff. unfold rangeOf in Hrange.
      by apply Permutation_nil_l in Hrange.
    + apply elem_of_cons in Hb as [[=]|Hb].
      pose proof (runLoop_actions (recurse s) cs (Looping (infos s))) as Hact.
      rewrite Forall_forall in Hact. by destruct (Hact _ Hb).
  - intros fs' order m. simpl.
    destruct (scan fs' (recurse s) order m) as [m' d]. simpl.
    by destruct d.
Qed.

Lemma C6_witness :
  Watch hostA "/r" true None = Ok sessionA ∧
  rangeOf infosA (map_to_list infosA) ∧
  (∀ b, Send b ∈ goroutine sessionA (map_to_list infosA)
                   [TickCase hostA orderA; TickCase hostB orderA] → b ≠ []).
Proof.
  assert (Watch hostA "/r" true None = Ok sessionA) as H1 by (vm_compute; reflexivity).
  assert (rangeOf (infos sessionA) (map_to_list infosA)) as H2 by (unfold rangeOf; reflexivity).
  split; [exact H1|]. split; [exact H2|].
  exact (proj1 (C6_no_empty_batch hostA "/r" true None sessionA (map_to_list infosA)
                  [TickCase hostA orderA; TickCase hostB orderA] H1 H2)).
Defined.

(** C7. [Watch] returns an error, and with it no session (no stream, no
    goroutine, no tracked set), exactly when resolving the path fails, or
    an interval is given that is zero or negative, or the path resolves
    and the initial walk returns an error. *)
Theorem C7_setup_errors fs path rec interval :
  (∃ e, Watch fs path rec interval = Err e) ↔
  (∃ e, Abs fs path = Err e) ∨
  (∃ d, interval = Some d ∧ d <= 0) ∨
  (∃ root e, Abs fs path = Ok root ∧
     (Walk (initialFn root rec) root (Tree fs root) ∅).2 = Some e).
Proof.
  unfold Watch. destruct (Abs fs path) as [root|e0].
  - destruct interval as [d|].
    + destruct (d <=? 0) eqn:Hd.
      * apply Z.leb_le in Hd. split; [|by eexists].
        intros _. right. left. by exists d.
      * apply Z.leb_gt in Hd.
        destruct (Walk (initialFn root rec) root (Tree fs root) ∅) as [m [e|]] eqn:HW.
        -- split; [|by eexists]. intros _. right. right. exists root, e. by rewrite HW.
        -- split; [by intros [? [=]]|].
           intros [[? [=]]|[(d' & [= <-] & Hle)|(r & e & [= <-] & He)]]; [lia|].
           by rewrite HW in He.
    + destruct (Walk (initialFn root rec) root (Tree fs root) ∅) as [m [e|]] eqn:HW.
      * split; [|by eexists]. intros _. right. right. exists root, e. by rewrite HW.
      * split; [by intros [? [=]]|].
        intros [[? [=]]|[(d' & [=] & _)|(r & e & [= <-] & He)]].
        by rewrite HW in He.
  - split; [|by eexists]. intros _. left. by exists e0.
Qed.

(** C8, amended to what the code does.  When the [select] picks [done]'s case, for
    the first time after any number of ticks, the loop returns: the
    stream is closed and the ticker stopped, once each and after
    everything sent before, and whatever cases come after do nothing.
    The [select] can pick [done]'s case exactly when [done] is ready, and
    the ticker's case whenever the ticker is ready, [done] ready or not. *)
Theorem C8_cancellation rec cs1 cs2 (m : Infos) :
  DoneCase ∉ cs1 →
  runLoop rec (cs1 ++ DoneCase :: cs2) (Looping m) =
    (Returned, (runLoop rec cs1 (Looping m)).2 ++ [CloseUpdates; StopTicker]) ∧
  (CloseUpdates ∉ (runLoop rec cs1 (Looping m)).2) ∧
  (StopTicker ∉ (runLoop rec cs1 (Looping m)).2) ∧
  (∀ r, selectable r DoneCase = doneReady r) ∧
  (∀ r fs order, selectable r (TickCase fs order) = tickReady r).
Proof.
  intros Hnin.
  destruct (runLoop_ticks rec cs1 m Hnin) as [[m' Hw] Htr].
  rewrite Forall_forall in Htr.
  split; [|repeat split].
  - rewrite runLoop_app, Hw. simpl. by rewrite runLoop_Returned.
  - intros [b [=]]%Htr.
  - intros [b [=]]%Htr.
Qed.

Lemma C8_witness :
  (DoneCase ∉ [TickCase hostB orderA]) ∧
  (runLoop true ([TickCase hostB orderA] ++ DoneCase :: [TickCase hostC orderA])
     (Looping infosA)).2 =
    [Send [changedUpdate "/r/f" (fileInfo "f" 0 10) (fileInfo "f" 3 20)];
     CloseUpdates; StopTicker].
Proof.
  assert (DoneCase ∉ [TickCase hostB orderA]) as H1.
  { intros H. apply elem_of_cons in H as [H|H]; [discriminate H|].
    by apply elem_of_nil in H. }
  split; [exact H1|].
  rewrite (proj1 (C8_cancellation true [TickCase hostB orderA] [TickCase hostC orderA]
                    infosA H1)).
  vm_compute. reflexivity.
Defined.

(** C8 as the specification states it fails: with the ticker and [done] both
    ready the [select] may pick the ticker's case, and then the scan is
    run, its batch is sent, and the loop goes on. *)
Lemma C8_counterexample :
  tickReady bothReady = true ∧ doneReady bothReady = true ∧
  selectable bothReady (TickCase hostB orderA) = true ∧
  loopIter true (TickCase hostB orderA) (Looping infosA) =
    (Looping (<["/r/f" := fileInfo "f" 3 20]> infosA),
     [Send [changedUpdate "/r/f" (fileInfo "f" 0 10) (fileInfo "f" 3 20)]]) ∧
  ¬ (∀ c, selectable bothReady c = true → c = DoneCase).
Proof.
  do 4 (split; [vm_compute; reflexivity|]).
  intros H. by specialize (H (TickCase hostB orderA) eq_refl).
Qed.

(** C9. Every event of every batch a session delivers carries a [Prev]
    snapshot, and never has both [WasAdded] and [WasRemoved] set. *)
Theorem C9_event_invariants s range cs b u :
  Send b ∈ goroutine s range cs → u ∈ b →
  Prev u ≠ None ∧ WasAdded u && WasRemoved u = false.
Proof.
  intros Hb Hu. apply eventShape_sound.
  assert (Forall eventShape b) as Hshape; [|by rewrite Forall_forall in Hshape; apply Hshape].
  unfold goroutine in Hb.
  apply elem_of_cons in Hb as [[= ->]|Hb]; [apply initialBatch_shape|].
  apply elem_of_cons in Hb as [[=]|Hb].
  pose proof (runLoop_actions (recurse s) cs (Looping (infos s))) as Hact.
  rewrite Forall_forall in Hact. by destruct (Hact _ Hb).
Qed.

Lemma C9_witness :
  Send [changedUpdate "/r" (dirInfo "r" 10) (dirInfo "r" 30);
        removed "/r/f" (fileInfo "f" 0 10) (PathError "stat" "/r/f" ENOENT)]
    ∈ goroutine sessionA (map_to_list infosA) [TickCase hostC orderA] ∧
  Prev (removed "/r/f" (fileInfo "f" 0 10) (PathError "stat" "/r/f" ENOENT)) ≠ None ∧
  WasAdded (removed "/r/f" (fileInfo "f" 0 10) (PathError "stat" "/r/f" ENOENT))
    && WasRemoved (removed "/r/f" (fileInfo "f" 0 10) (PathError "stat" "/r/f" ENOENT))
    = false.
Proof.
  assert (Send [changedUpdate "/r" (dirInfo "r" 10) (dirInfo "r" 30);
                removed "/r/f" (fileInfo "f" 0 10) (PathError "stat" "/r/f" ENOENT)]
            ∈ goroutine sessionA (map_to_list infosA) [TickCase hostC orderA]) as H1.
  { vm_compute. do 2 right. left. }
  split; [exact H1|].
  apply (C9_event_invariants sessionA (map_to_list infosA) [TickCase hostC orderA] _ _ H1).
  right. left.
Defined.

(** C10. A session started without an interval creates its ticker with a
    period of two seconds, and no other ticker. *)
Theorem C10_default_interval fs path rec s :
  Watch fs path rec None = Ok s →
  tick s = 2 * Second ∧
  Second = 1000000000 ∧
  (∀ range cs d, NewTicker d ∈ goroutine s range cs → d = 2 * Second).
Proof.
  intros (root & _ & _ & _ & Htick & _)%Watch_Ok.
  split; [done|]. split; [done|].
  intros range cs d Hd. unfold goroutine in Hd.
  apply elem_of_cons in Hd as [[=]|Hd].
  apply elem_of_cons in Hd as [[= ->]|Hd]; [done|].
  pose proof (runLoop_actions (recurse s) cs (Looping (infos s))) as Hact.
  rewrite Forall_forall in Hact. by destruct (Hact _ Hd).
Qed.

Lemma C10_witness :
  Watch hostA "/r" true None = Ok sessionA ∧ tick sessionA = 2 * Second.
Proof.
  assert (Watch hostA "/r" true None = Ok sessionA) as H1 by (vm_compute; reflexivity).
  split; [exact H1|].
  exact (proj1 (C10_default_interval hostA "/r" true sessionA H1)).
Defined.

(** ** Further properties of the package *)

(** An invariant of the scan that may depend on what [os.Stat] answered. *)
Section ScanInvariantStat.
Context (fs : FS) (recurse : bool) (P : Infos * list Update -> Prop).

Hypothesis discover_inv : forall p i st,
  P st -> st.1 !! p = None -> P (<[p := i]> st.1, st.2 ++ [added p i]).
Hypothesis removed_inv : forall path prev err st,
  P st -> st.1 !! path = Some prev -> Stat fs path = Err err ->
  P (if IsNotExist err then delete path st.1 else st.1, st.2 ++ [removed path prev err]).
Hypothesis changed_inv : forall path prev next st,
  P st -> st.1 !! path = Some prev -> Stat fs path = Ok next -> changed prev next = true ->
  P (<[path := next]> st.1, st.2 ++ [changedUpdate path prev next]).

Lemma scanPath_inv_stat path prev st :
  P st -> st.1 !! path = Some prev -> P (scanPath fs recurse path prev st).
Proof.
  intros Hst Hp. unfold scanPath, scanBody.
  destruct (Stat fs path) as [next|err] eqn:Hstat; simpl; [|by apply removed_inv].
  destruct (changed prev next) eqn:Hch; simpl; [|done].
  pose proof (changed_inv path prev next st Hst Hp Hstat Hch) as Hc.
  destruct (IsDir next); simpl; [|done].
  pose proof (Walk_inv (discoverFn recurse) P
    (discoverFn_inv recurse P discover_inv) path (Tree fs path) _ Hc) as Hw.
  by destruct (Walk (discoverFn recurse) path (Tree fs path) _).
Qed.

Lemma scanLoop_inv_stat order : forall st, P st -> P (scanLoop fs recurse order st).
Proof.
  induction order as [|path rest IH]; intros st Hst; simpl; [done|].
  destruct (st.1 !! path) as [prev|] eqn:Hp; [|by apply IH].
  by apply IH, scanPath_inv_stat.
Qed.
End ScanInvariantStat.

(** X1. A tick on which every tracked path is found as it was stored
    (its modification time no later, its size the same) produces no
    event, leaves the tracked set as it is and sends nothing, in whatever
    order its range runs. *)
Theorem X1_quiet_tick fs rec order (m : Infos) :
  (∀ p prev, m !! p = Some prev → unchanged fs p prev) →
  scan fs rec order m = (m, []) ∧
  loopIter rec (TickCase fs order) (Looping m) = (Looping m, []).
Proof.
  intros Hquiet.
  assert (scan fs rec order m = (m, [])) as Hscan.
  { unfold scan. induction order as [|p rest IH]; simpl; [done|].
    destruct (m !! p) as [prev|] eqn:Hp; [|done].
    destruct (Hquiet p prev Hp) as (next & Hstat & Hch).
    unfold scanPath, scanBody. by rewrite Hstat, Hch. }
  split; [done|]. simpl. by rewrite Hscan.
Qed.

Lemma X1_witness :
  (∀ p prev, infosA !! p = Some prev → unchanged hostA p prev) ∧
  scan hostA true orderA infosA = (infosA, []).
Proof.
  assert (∀ p prev, infosA !! p = Some prev → unchanged hostA p prev) as H.
  { intros p prev Hp. apply elem_of_map_to_list in Hp.
    vm_compute in Hp.
    repeat (apply elem_of_cons in Hp as [Hp|Hp];
            [injection Hp as -> ->; eexists; split; vm_compute; reflexivity|]).
    by apply elem_of_nil in Hp. }
  split; [exact H|].
  exact (proj1 (X1_quiet_tick hostA true orderA infosA H)).
Defined.

(** X2. Once the tracked set is empty the loop never sends a batch again,
    whatever the host does and whichever cases are picked: nothing is
    left to stat, and only a tracked directory is ever walked. *)
Theorem X2_empty_set_is_silent rec cs :
  batches (runLoop rec cs (Looping ∅)).2 = [] ∧
  (∀ fs order, scan fs rec order ∅ = (∅, [])).
Proof.
  assert (∀ fs order, scan fs rec order ∅ = (∅, [])) as Hscan.
  { intros fs order. unfold scan. induction order as [|p rest IH]; simpl; [done|].
    by rewrite lookup_empty. }
  split; [|done].
  induction cs as [|c cs IH]; [done|].
  destruct c as [fs order|]; simpl.
  - rewrite Hscan. simpl.
    destruct (runLoop rec cs (Looping ∅)) as [w tr]. by simpl in *.
  - by rewrite runLoop_Returned.
Qed.

(** X6. A scan drops a path from the tracked set only if [os.Stat]
    reported that the path does not exist. *)
Theorem X6_dropped_only_if_gone fs rec order (m : Infos) p :
  is_Some (m !! p) → (scan fs rec order m).1 !! p = None →
  ∃ err, Stat fs p = Err err ∧ IsNotExist err = true.
Proof.
  intros Hp.
  apply (scanLoop_inv_stat fs rec
    (fun st => st.1 !! p = None → ∃ err, Stat fs p = Err err ∧ IsNotExist err = true)).
  - intros p0 i st IH Hp0. simpl. intros Hnone.
    apply lookup_insert_None in Hnone as [Hnone _]. by apply IH.
  - intros path prev err st IH Hpath Hstat. simpl.
    destruct (IsNotExist err) eqn:Hne; [|done].
    intros Hnone. destruct (decide (path = p)) as [<-|Hneq]; [by exists err|].
    rewrite lookup_delete_ne in Hnone by done. by apply IH.
  - intros path prev next st IH Hpath Hstat Hch. simpl. intros Hnone.
    apply lookup_insert_None in Hnone as [Hnone _]. by apply IH.
  - simpl. intros Hnone. rewrite Hnone in Hp. by destruct Hp.
Qed.

Lemma X6_witness :
  is_Some (infosA !! "/r/f") ∧
  (scan hostC true orderA infosA).1 !! "/r/f" = None ∧
  ∃ err, Stat hostC "/r/f" = Err err ∧ IsNotExist err = true.
Proof.
  assert (is_Some (infosA !! "/r/f")) as H1 by (vm_compute; eexists; reflexivity).
  assert ((scan hostC true orderA infosA).1 !! "/r/f" = None) as H2
    by (vm_compute; reflexivity).
  split; [exact H1|]. split; [exact H2|].
  exact (X6_dropped_only_if_gone hostC true orderA infosA "/r/f" H1 H2).
Defined.

(** X7. An interval that is given is the ticker's period as it is, and
    the period of every session that starts is positive, as
    [time.NewTicker] requires. *)
Theorem X7_ticker_period fs path rec interval s :
  Watch fs path rec interval = Ok s →
  0 < tick s ∧
  (∀ d, interval = Some d → tick s = d) ∧
  (∀ range cs, NewTicker (tick s) ∈ goroutine s range cs).
Proof.
  intros (root & _ & _ & _ & Htick & Hpos)%Watch_Ok.
  split; [done|]. split.
  - intros d ->. done.
  - intros range cs. unfold goroutine. right. left.
Qed.

Lemma X7_witness :
  Watch hostA "/r" true (Some 10000000) =
    Ok {| infos := infosA; tick := 10000000; recurse := true |} ∧
  0 < 10000000.
Proof.
  assert (Watch hostA "/r" true (Some 10000000) =
            Ok {| infos := infosA; tick := 10000000; recurse := true |}) as H1
    by (vm_compute; reflexivity).
  split; [exact H1|].
  exact (proj1 (X7_ticker_period hostA "/r" true (Some 10000000) _ H1)).
Defined.

(** ** The initial walk as a whole *)

Lemma walk_unfold {S : Type} (walkFn : WalkFunc S) path info readdir s :
  walk walkFn path (MkFile info readdir) s =
  if negb (IsDir info) then walkFn path (Found info None) s
  else
    match readdir with
    | inl errno => walkFn path (Found info (Some (PathError "open" path errno))) s
    | inr names =>
        let '(s1, err1) := walkFn path (Found info None) s in
        match err1 with
        | Some e => (s1, Some e)
        | None => walkEntries walkFn path names s1
        end
    end.
Proof. reflexivity. Qed.

Lemma Join_ne dir name : Join dir name ≠ dir.
Proof.
  unfold Join. induction dir as [|a dir IH]; simpl; [done|].
  intros [= H]. by apply IH.
Qed.

(** Without recursion, the walk of an entry of the root tracks at most
    the entry itself. *)
Lemma walk_flat_child root path fi rd (s : Infos) :
  path ≠ root →
  (walk (initialFn root false) path (MkFile fi rd) s).1 = s ∨
  (walk (initialFn root false) path (MkFile fi rd) s).1 = <[path := fi]> s.
Proof.
  intros Hne. rewrite walk_unfold. unfold initialFn.
  destruct (IsDir fi); simpl; [|by right].
  destruct rd as [errno|names]; simpl; [by left|].
  rewrite bool_decide_eq_false_2 by done. simpl. by right.
Qed.

Lemma walkEntries_flat root names : ∀ (s : Infos) p,
  is_Some ((walkEntries (initialFn root false) root names s).1 !! p) →
  is_Some (s !! p) ∨ ∃ name node, (name, node) ∈ names ∧ p = Join root name.
Proof.
  induction names as [|[name node] rest IH]; intros s p; [by left|].
  assert (∀ s' : Infos,
            is_Some ((walkEntries (initialFn root false) root rest s').1 !! p) →
            (is_Some (s' !! p) → is_Some (s !! p) ∨ p = Join root name) →
            is_Some (s !! p) ∨
            ∃ name0 node0, (name0, node0) ∈ (name, node) :: rest ∧ p = Join root name0)
    as Hrest.
  { intros s' Hsome Hs'. apply IH in Hsome as [Hsome|(n0 & nd0 & Hin & ->)].
    - destruct (Hs' Hsome) as [? | ->]; [by left|].
      right. exists name, node. split; [left|done].
    - right. exists n0, nd0. split; [by right|done]. }
  assert (∀ s' : Infos, is_Some (s' !! p) →
            (is_Some (s' !! p) → is_Some (s !! p) ∨ p = Join root name) →
            is_Some (s !! p) ∨
            ∃ name0 node0, (name0, node0) ∈ (name, node) :: rest ∧ p = Join root name0)
    as Hstop.
  { intros s' Hsome Hs'. destruct (Hs' Hsome) as [? | ->]; [by left|].
    right. exists name, node. split; [left|done]. }
  destruct node as [[fi rd]|errno]; cbn [walkEntries].
  - pose proof (walk_flat_child root (Join root name) fi rd s (Join_ne root name)) as Hw.
    destruct (walk (initialFn root false) (Join root name) (MkFile fi rd) s) as [s2 e].
    simpl in Hw.
    assert (is_Some (s2 !! p) → is_Some (s !! p) ∨ p = Join root name) as Hs2.
    { destruct Hw as [-> | ->]; [by left|].
      intros [Heq|Hsome]%lookup_insert_is_Some'; [by right|by left]. }
    destruct e as [e|]; [destruct (negb (IsDir fi) || negb (isSkipDir e))|];
      simpl; intros Hsome; eauto.
  - simpl. intros Hsome. by left.
Qed.

(** X4. A watch without recursion that starts tracks, besides its root,
    only entries of the root directory itself: nothing deeper. *)
Theorem X4_flat_watch_is_shallow fs path interval s root p :
  Watch fs path false interval = Ok s → Abs fs path = Ok root →
  is_Some (infos s !! p) →
  p = root ∨
  ∃ info names name node,
    Tree fs root = Entry (MkFile info (inr names)) ∧
    (name, node) ∈ names ∧ p = Join root name.
Proof.
  intros (root' & Habs & Hwalk & _)%Watch_Ok Habs' Hp.
  rewrite Habs' in Habs. injection Habs as <-.
  unfold Walk in Hwalk.
  destruct (Tree fs root) as [[info rd]|errno]; [|done].
  assert ((walk (initialFn root false) root (MkFile info rd) ∅).1 = infos s) as Hs.
  { destruct (walk _ _ _ _) as [s' [e|]]; [|by injection Hwalk].
    destruct (isSkipDir e); [by injection Hwalk|done]. }
  rewrite <- Hs in Hp. clear Hs Hwalk. revert Hp.
  rewrite walk_unfold. unfold initialFn at 1 2 3.
  destruct (IsDir info); simpl.
  - destruct rd as [errno|names]; simpl.
    + rewrite lookup_empty. by intros [? [=]].
    + rewrite bool_decide_eq_true_2 by done. simpl.
      intros [Hsome|(name & node & Hin & ->)]%walkEntries_flat.
      * apply lookup_insert_is_Some' in Hsome as [->|Hsome]; [by left|].
        rewrite lookup_empty in Hsome. by destruct Hsome.
      * right. by exists info, names, name, node.
  - intros [->|Hsome]%lookup_insert_is_Some'; [by left|].
    rewrite lookup_empty in Hsome. by destruct Hsome.
Qed.

Lemma X4_witness :
  Watch hostA "/r" false None = Ok sessionFlat ∧
  Abs hostA "/r" = Ok "/r" ∧
  is_Some (infos sessionFlat !! "/r/sub") ∧
  ("/r/sub" = "/r" ∨
   ∃ info names name node,
     Tree hostA "/r" = Entry (MkFile info (inr names)) ∧
     (name, node) ∈ names ∧ "/r/sub" = Join "/r" name).
Proof.
  assert (Watch hostA "/r" false None = Ok sessionFlat) as H1 by (vm_compute; reflexivity).
  assert (Abs hostA "/r" = Ok "/r") as H2 by reflexivity.
  assert (is_Some (infos sessionFlat !! "/r/sub")) as H3
    by (vm_compute; eexists; reflexivity).
  do 3 (split; [assumption|]).
  exact (X4_flat_watch_is_shallow hostA "/r" None sessionFlat "/r" "/r/sub" H1 H2 H3).
Defined.

(** X3. Watching a plain file tracks exactly that file: the tracked set
    is the one entry, and the initial batch its one added event. *)
Theorem X3_plain_file fs path rec interval s root info rd :
  Watch fs path rec interval = Ok s → Abs fs path = Ok root →
  Tree fs root = Entry (MkFile info rd) → IsDir info = false →
  infos s = {[root := info]} ∧
  (∀ range, rangeOf (infos s) range → initialBatch range = [added root info]).
Proof.
  intros (root' & Habs & Hwalk & _)%Watch_Ok Habs' Htree Hdir.
  rewrite Habs' in Habs. injection Habs as <-.
  rewrite Htree in Hwalk. unfold Walk in Hwalk. rewrite walk_unfold, Hdir in Hwalk.
  simpl in Hwalk. rewrite Hdir in Hwalk. simpl in Hwalk. injection Hwalk as Hs.
  assert (infos s = {[root := info]}) as ->.
  { rewrite <- Hs. apply insert_empty. }
  split; [done|].
  intros range Hrange. unfold rangeOf in Hrange.
  rewrite map_to_list_singleton in Hrange.
  apply Permutation_singleton_r in Hrange as ->. done.
Qed.

Lemma X3_witness :
  Watch hostFile "/r/f" true None =
    Ok {| infos := {[ "/r/f" := fileInfo "f" 0 10 ]}; tick := 2 * Second; recurse := true |} ∧
  initialBatch [("/r/f", fileInfo "f" 0 10)] = [added "/r/f" (fileInfo "f" 0 10)].
Proof.
  assert (Watch hostFile "/r/f" true None =
    Ok {| infos := {[ "/r/f" := fileInfo "f" 0 10 ]}; tick := 2 * Second;
          recurse := true |}) as H1 by (vm_compute; reflexivity).
  split; [exact H1|].
  apply (proj2 (X3_plain_file hostFile "/r/f" true None _ "/r/f" (fileInfo "f" 0 10) (inr [])
                  H1 eq_refl eq_refl eq_refl)).
  unfold rangeOf. simpl. by rewrite map_to_list_singleton.
Defined.

(** With recursion, the walk of a readable tree succeeds and tracks, on
    top of what was tracked, exactly the paths of the tree. *)
Lemma walk_recursive root f :
  readable f = true →
  ∀ path (s : Infos),
    ∃ s', walk (initialFn root true) path f s = (s', None) ∧
          ∀ p, is_Some (s' !! p) ↔ is_Some (s !! p) ∨ p ∈ paths path f.
Proof.
  induction f as [info rd IH] using File_tree_ind.
  intros Hread path s. rewrite walk_unfold. unfold initialFn at 1 2 3.
  simpl in Hread. simpl paths.
  destruct (IsDir info); simpl in *.
  - destruct rd as [errno|names]; [done|]. simpl in IH.
    assert (∀ s1 : Infos,
              ∃ s', walkEntries (initialFn root true) path names s1 = (s', None) ∧
                    ∀ p, is_Some (s' !! p) ↔
                         is_Some (s1 !! p) ∨
                         p ∈ flat_map (fun e : string * Node =>
                                         match e.2 with
                                         | Entry f' => paths (Join path e.1) f'
                                         | NoEntry _ => []
                                         end) names) as Hloop.
    { revert Hread. induction IH as [|[name node] rest Hnode _ IHrest]; intros Hread s1.
      - exists s1. split; [done|]. intros p. split; [by left|].
        intros [H|H]; [done|]. by apply elem_of_nil in H.
      - simpl in Hread. apply andb_true_iff in Hread as [Hf Hrest].
        destruct node as [[fi rd']|errno]; [|done].
        unfold entryP in Hnode. cbn [snd] in Hnode.
        destruct (Hnode Hf (Join path name) s1) as (s2 & Hw & Hiff).
        destruct (IHrest Hrest s2) as (s3 & Hl & Hiff3).
        exists s3. cbn [walkEntries]. rewrite Hw. split; [done|].
        intros p. rewrite Hiff3, Hiff. cbn [flat_map fst snd].
        rewrite elem_of_app. tauto. }
    destruct (Hloop (<[path := info]> s)) as (s' & Hl & Hiff).
    exists s'. split; [done|].
    intros p. rewrite Hiff, lookup_insert_is_Some', elem_of_cons. split.
    + intros [[->|H]|H]; auto.
    + intros [H|[->|H]]; auto.
  - eexists. split; [done|].
    intros p. rewrite lookup_insert_is_Some', list_elem_of_singleton. split.
    + intros [->|H]; auto.
    + intros [H| ->]; auto.
Qed.

(** X5. A recursive watch of a tree in which every directory can be read
    and every listed entry can be reached starts, and tracks exactly the
    paths of the tree: the root and everything below it. *)
Theorem X5_recursive_watch_tracks_tree fs path interval root f :
  Abs fs path = Ok root → Tree fs root = Entry f → readable f = true →
  (∀ d, interval = Some d → 0 < d) →
  ∃ s, Watch fs path true interval = Ok s ∧
       ∀ p, is_Some (infos s !! p) ↔ p ∈ paths root f.
Proof.
  intros Habs Htree Hread Hpos.
  destruct (walk_recursive root f Hread root ∅) as (m & Hw & Hiff).
  assert (Walk (initialFn root true) root (Tree fs root) ∅ = (m, None)) as HW.
  { unfold Walk. by rewrite Htree, Hw. }
  assert (∀ p, is_Some (m !! p) ↔ p ∈ paths root f) as Hm.
  { intros p. rewrite Hiff, lookup_empty. split; [|by right].
    intros [[? [=]]|H]; done. }
  unfold Watch. rewrite Habs. destruct interval as [d|].
  - specialize (Hpos d eq_refl).
    destruct (d <=? 0) eqn:Hd; [apply Z.leb_le in Hd; lia|].
    rewrite HW. by eexists.
  - rewrite HW. by eexists.
Qed.

Lemma X5_witness :
  Abs hostA "/r" = Ok "/r" ∧ Tree hostA "/r" = Entry treeA ∧ readable treeA = true ∧
  paths "/r" treeA = ["/r"; "/r/f"; "/r/sub"; "/r/sub/a"] ∧
  ∃ s, Watch hostA "/r" true None = Ok s ∧
       ∀ p, is_Some (infos s !! p) ↔ p ∈ paths "/r" treeA.
Proof.
  do 4 (split; [vm_compute; reflexivity|]).
  apply (X5_recursive_watch_tracks_tree hostA "/r" None "/r" treeA);
    [reflexivity|vm_compute; reflexivity|vm_compute; reflexivity|discriminate].
Defined.

(** ** The goroutine as a whole *)

(** X8. Whatever cases the loop's [select] picks, what the loop does
    is to send batches and then, if and only if [done]'s case is among
    those picked, to close the stream and stop the ticker, once, with
    nothing sent afterwards; if [done]'s case is never picked the loop is
    still running and the stream is open. *)
Theorem X8_stream_shape rec cs : ∀ m : Infos,
  ∃ bs,
    (DoneCase ∈ cs ∧
     runLoop rec cs (Looping m) = (Returned, map Send bs ++ [CloseUpdates; StopTicker])) ∨
    ((DoneCase ∉ cs) ∧
     ∃ m', runLoop rec cs (Looping m) = (Looping m', map Send bs)).
Proof.
  induction cs as [|c cs IH]; intros m.
  - exists []. right. split; [by intros ?%elem_of_nil|]. by exists m.
  - destruct c as [fs order|].
    + cbn [runLoop loopIter].
      destruct (scan fs rec order m) as [m1 d].
      destruct (IH m1) as (bs & [[Hin Hrun]|[Hnin [m' Hrun]]]); rewrite Hrun.
      * exists ((if (0 <? length d)%nat then [d] else []) ++ bs). left.
        split; [by right|]. rewrite map_app, <- app_assoc.
        by destruct (0 <? length d)%nat.
      * exists ((if (0 <? length d)%nat then [d] else []) ++ bs). right.
        split.
        { intros [[=]|?]%elem_of_cons. done. }
        exists m'. rewrite map_app. by destruct (0 <? length d)%nat.
    + exists []. left. split; [left|].
      cbn [runLoop loopIter]. by rewrite runLoop_Returned.
Qed.

(** Every batch a session delivers holds events of the three shapes. *)
Lemma delivered_shape s range cs b :
  Send b ∈ goroutine s range cs → Forall eventShape b.
Proof.
  intros Hb. unfold goroutine in Hb.
  apply elem_of_cons in Hb as [[= ->]|Hb]; [apply initialBatch_shape|].
  apply elem_of_cons in Hb as [[=]|Hb].
  pose proof (runLoop_actions (recurse s) cs (Looping (infos s))) as Hact.
  rewrite Forall_forall in Hact. by destruct (Hact _ Hb).
Qed.

(** X9. For every update of every batch a session delivers, the demo
    prints its report without a panic, and its label agrees with the rest
    of the report: "Removed" exactly when the update has an error, which
    the report then shows, "Changed" exactly when it has a [Next], which
    the report then shows, and "Added" exactly when it has neither. *)
Theorem X9_demo_report s range cs b u :
  Send b ∈ goroutine s range cs → u ∈ b →
  is_Some (report u) ∧
  (change u = "Removed" ↔ is_Some (Error u)) ∧
  (change u = "Changed" ↔ is_Some (Next u)) ∧
  (change u = "Added" ↔ Error u = None ∧ Next u = None) ∧
  (∀ err, Error u = Some err → ∃ ls, report u = Some (ls ++ [ErrorLine err])) ∧
  (∀ next, Next u = Some next →
     ∃ ls, report u = Some (ls ++ [NextLine (ModTime next) (Size next)])).
Proof.
  intros Hb Hu. apply delivered_shape in Hb.
  rewrite Forall_forall in Hb. destruct (Hb u Hu) as [p i|p prev err|p prev next].
  all: repeat split; cbn; try done; try (by eexists);
    try (by intros [? [=]]); try (by intros [[=] _]); try (by intros [_ [=]]);
    intros ? [= <-]; by eexists [_; _; _].
Qed.

Lemma X9_witness :
  Send [changedUpdate "/r/f" (fileInfo "f" 0 10) (fileInfo "f" 3 20)]
    ∈ goroutine sessionA (map_to_list infosA) [TickCase hostB orderA] ∧
  report (changedUpdate "/r/f" (fileInfo "f" 0 10) (fileInfo "f" 3 20)) =
    Some [Heading "/r/f" "Changed"; IsDirLine false; PrevLine 10 0; NextLine 20 3].
Proof.
  assert (Send [changedUpdate "/r/f" (fileInfo "f" 0 10) (fileInfo "f" 3 20)]
            ∈ goroutine sessionA (map_to_list infosA) [TickCase hostB orderA]) as H1.
  { vm_compute. do 2 right. left. }
  split; [exact H1|].
  destruct (X9_demo_report sessionA (map_to_list infosA) [TickCase hostB orderA] _
              (changedUpdate "/r/f" (fileInfo "f" 0 10) (fileInfo "f" 3 20)) H1)
    as (_ & _ & _ & _ & _ & H); [left|].
  destruct (H _ eq_refl) as [ls Hls]. reflexivity.
Defined.

(** ** What a batch says about the host and the tracked set *)

Lemma rediscovered_app p d l : rediscovered p d → rediscovered p (d ++ l).
Proof. intros [i Hi]. exists i. apply elem_of_app. by left. Qed.

Lemma scanLoop_watched fs rec order (m : Infos) :
  ∀ st, watched m st → watched m (scanLoop fs rec order st).
Proof.
  apply (scanLoop_inv rec (watched m)); unfold watched; simpl.
  - intros p0 i st [IH1 IH2] Hp0. split.
    + intros u [Hu|Hu%list_elem_of_singleton]%elem_of_app.
      * destruct (IH1 u Hu) as [?|?]; [by left|right; by apply rediscovered_app].
      * subst u. right. exists i. apply elem_of_app. right. by left.
    + intros p [->|Hp]%lookup_insert_is_Some'.
      * right. exists i. apply elem_of_app. right. by left.
      * destruct (IH2 p Hp) as [?|?]; [by left|right; by apply rediscovered_app].
  - intros path prev err st [IH1 IH2] Hpath.
    assert (∀ p, is_Some (st.1 !! p) →
              is_Some (m !! p) ∨ rediscovered p (st.2 ++ [removed path prev err])) as IH2'.
    { intros p Hp. destruct (IH2 p Hp) as [?|?]; [by left|right; by apply rediscovered_app]. }
    split.
    + intros u [Hu|Hu%list_elem_of_singleton]%elem_of_app.
      * destruct (IH1 u Hu) as [?|?]; [by left|right; by apply rediscovered_app].
      * subst u. simpl. apply IH2'. by rewrite Hpath.
    + intros p Hp. apply IH2'. destruct (IsNotExist err); [|done].
      apply lookup_delete_is_Some in Hp as [_ Hp]. done.
  - intros path prev next st [IH1 IH2] Hpath.
    assert (∀ p, is_Some (st.1 !! p) →
              is_Some (m !! p) ∨
              rediscovered p (st.2 ++ [changedUpdate path prev next])) as IH2'.
    { intros p Hp. destruct (IH2 p Hp) as [?|?]; [by left|right; by apply rediscovered_app]. }
    split.
    + intros u [Hu|Hu%list_elem_of_singleton]%elem_of_app.
      * destruct (IH1 u Hu) as [?|?]; [by left|right; by apply rediscovered_app].
      * subst u. simpl. apply IH2'. by rewrite Hpath.
    + intros p [->|Hp]%lookup_insert_is_Some'; apply IH2'; [by rewrite Hpath|done].
Qed.

(** X10. A scan reports only paths it watches: every event of its batch
    is about a path that was tracked when the tick began or that the
    batch itself reports as added; and a path is tracked when the tick
    ends only if it was tracked when the tick began or the batch reports
    it as added. *)
Theorem X10_events_about_watched_paths fs rec order (m : Infos) :
  (∀ u, u ∈ (scan fs rec order m).2 →
     is_Some (m !! AbsPath u) ∨ rediscovered (AbsPath u) (scan fs rec order m).2) ∧
  (∀ p, is_Some ((scan fs rec order m).1 !! p) →
     is_Some (m !! p) ∨ rediscovered p (scan fs rec order m).2).
Proof.
  apply (scanLoop_watched fs rec order m (m, [])). split; simpl.
  - by intros u ?%elem_of_nil.
  - intros p Hp. by left.
Qed.

Lemma X10_witness :
  added "/r/f" (fileInfo "f" 0 40) ∈ (scan hostD true orderA (delete "/r/f" infosA)).2 ∧
  (is_Some (delete "/r/f" infosA !! "/r/f") ∨
   rediscovered "/r/f" (scan hostD true orderA (delete "/r/f" infosA)).2).
Proof.
  assert (added "/r/f" (fileInfo "f" 0 40)
            ∈ (scan hostD true orderA (delete "/r/f" infosA)).2) as H1.
  { vm_compute. right. left. }
  split; [exact H1|].
  exact (proj1 (X10_events_about_watched_paths hostD true orderA (delete "/r/f" infosA))
           _ H1).
Defined.

(** X11. A scan reports no removal and no change that the host did not
    show: an event with [WasRemoved] set carries the error [os.Stat]
    returned for its path, and an event with neither flag set carries as
    [Next] the metadata [os.Stat] returned for its path, which differs
    from its [Prev] in size or has a later modification time. *)
Theorem X11_events_are_justified fs rec order (m : Infos) u :
  u ∈ (scan fs rec order m).2 → justified fs u.
Proof.
  revert u. apply (scanLoop_inv_stat fs rec (fun st => ∀ u, u ∈ st.2 → justified fs u)); simpl.
  - intros p0 i st IH _ u [Hu|Hu%list_elem_of_singleton]%elem_of_app; [by apply IH|].
    subst u. by split.
  - intros path prev err st IH _ Hstat u [Hu|Hu%list_elem_of_singleton]%elem_of_app;
      [by apply IH|].
    subst u. split; [|done]. intros _. by exists err.
  - intros path prev next st IH _ Hstat Hch u [Hu|Hu%list_elem_of_singleton]%elem_of_app;
      [by apply IH|].
    subst u. split; [done|]. intros _ _. by exists prev, next.
  - by intros u ?%elem_of_nil.
Qed.

Lemma X11_witness :
  changedUpdate "/r/f" (fileInfo "f" 0 10) (fileInfo "f" 3 20)
    ∈ (scan hostB true orderA infosA).2 ∧
  justified hostB (changedUpdate "/r/f" (fileInfo "f" 0 10) (fileInfo "f" 3 20)).
Proof.
  assert (changedUpdate "/r/f" (fileInfo "f" 0 10) (fileInfo "f" 3 20)
            ∈ (scan hostB true orderA infosA).2) as H1.
  { vm_compute. left. }
  split; [exact H1|].
  exact (X11_events_are_justified hostB true orderA infosA _ H1).
Defined.

(** ** More on the initial walk and on whole sessions *)

(** Without recursion, the walk of a reachable entry of the root tracks
    the entry and, if it is a directory, skips it. *)
Lemma walk_flat_child_exact root path fi rd (s : Infos) :
  path ≠ root →
  negb (IsDir fi) || match rd with inl _ => false | inr _ => true end = true →
  walk (initialFn root false) path (MkFile fi rd) s =
    (<[path := fi]> s, if IsDir fi then Some SkipDir else None).
Proof.
  intros Hne Hrd. rewrite walk_unfold. unfold initialFn.
  destruct (IsDir fi); simpl in *; [|done].
  destruct rd as [errno|names]; [done|]. simpl.
  by rewrite bool_decide_eq_false_2.
Qed.

Lemma walkEntries_flat_exact root names :
  reachable names = true →
  ∀ s : Infos,
    ∃ s', walkEntries (initialFn root false) root names s = (s', None) ∧
          ∀ p, is_Some (s' !! p) ↔
               is_Some (s !! p) ∨ ∃ name node, (name, node) ∈ names ∧ p = Join root name.
Proof.
  unfold reachable.
  induction names as [|[name node] rest IH]; intros Hok s.
  - exists s. split; [done|]. intros p. split; [by left|].
    intros [H|(? & ? & H & _)]; [done|]. by apply elem_of_nil in H.
  - simpl in Hok. apply andb_true_iff in Hok as [Hnode Hrest].
    destruct node as [[fi rd]|errno]; [|done].
    destruct (IH Hrest (<[Join root name := fi]> s)) as (s' & Hl & Hiff).
    exists s'. cbn [walkEntries].
    rewrite (walk_flat_child_exact root (Join root name) fi rd s (Join_ne root name) Hnode).
    split.
    + destruct (IsDir fi); simpl; exact Hl.
    + intros p. rewrite Hiff, lookup_insert_is_Some'. split.
      * intros [[<-|H]|(n0 & nd0 & Hin & ->)]; [|by left|].
        -- right. eexists name, _. split; [left|done].
        -- right. exists n0, nd0. split; [by right|done].
      * intros [H|(n0 & nd0 & [[= -> ->]|Hin]%elem_of_cons & ->)].
        -- left. by right.
        -- left. by left.
        -- right. by exists n0, nd0.
Qed.

(** X12. A watch without recursion of a directory whose entries can all
    be reached starts, and tracks exactly the directory and its entries,
    subdirectories included and nothing inside them. *)
Theorem X12_flat_watch_tracks_entries fs path interval root info names :
  Abs fs path = Ok root → Tree fs root = Entry (MkFile info (inr names)) →
  IsDir info = true → reachable names = true →
  (∀ d, interval = Some d → 0 < d) →
  ∃ s, Watch fs path false interval = Ok s ∧
       ∀ p, is_Some (infos s !! p) ↔
            p = root ∨ ∃ name node, (name, node) ∈ names ∧ p = Join root name.
Proof.
  intros Habs Htree Hdir Hok Hpos.
  destruct (walkEntries_flat_exact root names Hok (<[root := info]> ∅))
    as (m & Hl & Hiff).
  assert (Walk (initialFn root false) root (Tree fs root) ∅ = (m, None)) as HW.
  { unfold Walk. rewrite Htree, walk_unfold, Hdir. simpl.
    rewrite bool_decide_eq_true_2 by done. rewrite Hdir. simpl. by rewrite Hl. }
  assert (∀ p, is_Some (m !! p) ↔
               p = root ∨ ∃ name node, (name, node) ∈ names ∧ p = Join root name) as Hm.
  { intros p. rewrite Hiff, lookup_insert_is_Some', lookup_empty. split.
    - intros [[->|[? [=]]]|H]; auto.
    - intros [->|H]; auto. }
  unfold Watch. rewrite Habs. destruct interval as [d|].
  - specialize (Hpos d eq_refl).
    destruct (d <=? 0) eqn:Hd; [apply Z.leb_le in Hd; lia|].
    rewrite HW. by eexists.
  - rewrite HW. by eexists.
Qed.

Lemma X12_witness :
  Abs hostA "/r" = Ok "/r" ∧
  Tree hostA "/r" =
    Entry (MkFile (dirInfo "r" 10) (inr [plain "f" 0 10; dir "sub" 10 [plain "a" 0 10]])) ∧
  reachable [plain "f" 0 10; dir "sub" 10 [plain "a" 0 10]] = true ∧
  ∃ s, Watch hostA "/r" false None = Ok s ∧
       ∀ p, is_Some (infos s !! p) ↔
            p = "/r" ∨
            ∃ name node,
              (name, node) ∈ [plain "f" 0 10; dir "sub" 10 [plain "a" 0 10]] ∧
              p = Join "/r" name.
Proof.
  do 3 (split; [vm_compute; reflexivity|]).
  apply (X12_flat_watch_tracks_entries hostA "/r" None "/r" (dirInfo "r" 10));
    [reflexivity|vm_compute; reflexivity|reflexivity|vm_compute; reflexivity|discriminate].
Defined.

(** While the loop runs, a path it tracks was tracked from the start or
    has been reported as added in a batch it sent. *)
Lemma runLoop_announced rec cs : ∀ (m m' : Infos) p,
  (runLoop rec cs (Looping m)).1 = Looping m' → is_Some (m' !! p) →
  is_Some (m !! p) ∨
  ∃ b i, Send b ∈ (runLoop rec cs (Looping m)).2 ∧ added p i ∈ b.
Proof.
  induction cs as [|c cs IH]; intros m m' p Hrun Hp.
  - simpl in Hrun. injection Hrun as <-. by left.
  - destruct c as [fs order|]; cbn [runLoop loopIter] in *.
    + assert (watched m (m, [])) as Hinit.
      { split; simpl; [by intros u ?%elem_of_nil|by left]. }
      pose proof (proj2 (scanLoop_watched fs rec order m (m, []) Hinit) p) as Hscan.
      fold (scan fs rec order m) in Hscan.
      destruct (scan fs rec order m) as [m1 d]. simpl in Hscan.
      specialize (IH m1 m' p).
      destruct (runLoop rec cs (Looping m1)) as [w tr]. simpl in *.
      destruct (IH Hrun Hp) as [H1|(b & i & Hb & Hi)].
      * destruct (Hscan H1) as [?|[i Hi]]; [by left|].
        right. exists d, i. split; [|done].
        apply elem_of_app. left. destruct d; [by apply elem_of_nil in Hi|]. left.
      * right. exists b, i. split; [|done]. apply elem_of_app. by right.
    + rewrite runLoop_Returned in Hrun. done.
Qed.

(** X13. Every path a running session tracks has been reported to the
    consumer as added, in the initial batch or in a later one. *)
Theorem X13_tracked_paths_were_announced s range cs (m' : Infos) p :
  rangeOf (infos s) range →
  (runLoop (recurse s) cs (Looping (infos s))).1 = Looping m' →
  is_Some (m' !! p) →
  ∃ b i, Send b ∈ goroutine s range cs ∧ added p i ∈ b.
Proof.
  intros Hrange Hrun Hp.
  destruct (runLoop_announced (recurse s) cs (infos s) m' p Hrun Hp)
    as [[i Hi]|(b & i & Hb & Hi)].
  - exists (initialBatch range), i. split; [left|].
    apply rangeOf_list_to_map in Hrange as [Hnd Hm]. rewrite <- Hm in Hi.
    apply elem_of_list_to_map_2 in Hi.
    unfold initialBatch. apply list_elem_of_fmap. by exists (p, i).
  - exists b, i. split; [|done]. unfold goroutine. by do 2 right.
Qed.

Lemma X13_witness :
  rangeOf (infos sessionFlat) (map_to_list infosFlat) ∧
  is_Some ((scan hostE false orderA infosFlat).1 !! "/r/sub/b") ∧
  ∃ b i, Send b ∈ goroutine sessionFlat (map_to_list infosFlat) [TickCase hostE orderA] ∧
         added "/r/sub/b" i ∈ b.
Proof.
  assert (rangeOf (infos sessionFlat) (map_to_list infosFlat)) as H1
    by (unfold rangeOf; reflexivity).
  assert (is_Some ((scan hostE false orderA infosFlat).1 !! "/r/sub/b")) as H2
    by (vm_compute; eexists; reflexivity).
  split; [exact H1|]. split; [exact H2|].
  apply (X13_tracked_paths_were_announced sessionFlat (map_to_list infosFlat)
           [TickCase hostE orderA] (scan hostE false orderA infosFlat).1 "/r/sub/b" H1);
    [|exact H2].
  vm_compute. reflexivity.
Defined.
